(** * Leva: schema resolution, value snapshots and input setters

    A shallow embedding of the schema/store utilities of the leva
    packages, together with the properties their specification states.

    JavaScript objects used as dictionaries are finite maps keyed by
    strings ([gmap string _]); an object's own properties are the map's
    domain.  A schema, whose entries are visited in [Object.entries]
    order, is the list of those entries. *)

From stdpp Require Import gmap strings list fin_maps pretty.

Set Warnings "-register-all,-clear-no-such-hyp".
Open Scope string_scope.

(** ** JavaScript values *)

Inductive Val : Type :=
  | VUndefined
  | VNull
  | VBool (b : bool)
  | VNum (n : Z)
  | VStr (s : string)
  | VFun (source : string)
  | VArr (items : list Val)
  | VObj (fields : gmap string Val).

Abbreviation Obj := (gmap string Val).

(** [o.k] for a plain object: a missing property reads as [undefined]. *)
Definition prop (o : Obj) (k : string) : Val := default VUndefined (o !! k).

(** ToBoolean. *)
Definition truthy (v : Val) : bool :=
  match v with
  | VUndefined | VNull => false
  | VBool b => b
  | VNum n => negb (n =? 0)%Z
  | VStr s => negb (String.eqb s "")
  | VFun _ | VArr _ | VObj _ => true
  end.

(** ToString, as used when a value is the key of a computed member
    ([acc[key] = ...]).  Numbers are the integers, printed in decimal
    as JavaScript prints them up to 21 digits. *)
Fixpoint toString (v : Val) : string :=
  match v with
  | VUndefined => "undefined"
  | VNull => "null"
  | VBool true => "true"
  | VBool false => "false"
  | VNum n => pretty n
  | VStr s => s
  | VFun source => source
  | VArr items =>
      String.concat ","
        (map (fun x => match x with
                       | VUndefined | VNull => ""
                       | _ => toString x
                       end) items)
  | VObj _ => "[object Object]"
  end.

(** The characters of a string, each as a string of its own. *)
Fixpoint characters (s : string) : list Val :=
  match s with
  | EmptyString => []
  | String c rest => VStr (String c EmptyString) :: characters rest
  end.

(** The own properties of an array-like value: its items under their
    indices. *)
Definition indexed (items : list Val) : Obj :=
  list_to_map (zip (pretty <$> seq 0 (length items)) items).

(** Object spread [{...v}]: the own enumerable properties of an object,
    the indexed items of an array or string, nothing for the other
    values. *)
Definition spread (v : Val) : Obj :=
  match v with
  | VObj o => o
  | VArr items => indexed items
  | VStr s => indexed (characters s)
  | _ => ∅
  end.

(** How a statement completes: normally, or by throwing a value. *)
Inductive Completion : Type :=
  | Normal
  | Throw (error : Val).

(** The [TypeError] raised when [null] or [undefined] is destructured. *)
Definition TypeError : Val :=
  VObj {[ "name" := VStr "TypeError" ]}.

(** [null] and [undefined] have no members: reading one throws. *)
Definition nullish (v : Val) : bool :=
  match v with
  | VUndefined | VNull => true
  | _ => false
  end.

(** The names of the members that every plain object inherits from
    [Object.prototype]. *)
Definition Object_prototype : list string :=
  ["constructor"; "__defineGetter__"; "__defineSetter__"; "hasOwnProperty";
   "__lookupGetter__"; "__lookupSetter__"; "isPrototypeOf"; "propertyIsEnumerable";
   "toString"; "valueOf"; "__proto__"; "toLocaleString"].

Definition inherited (k : string) : bool := bool_decide (k ∈ Object_prototype).

(** [k in o] for a plain object [o]: [o] has the member [k] itself or
    inherits it. *)
Definition has {A} (o : gmap string A) (k : string) : bool :=
  bool_decide (is_Some (o !! k)) || inherited k.

(** ** hooks/useInputSetters.ts *)

Module InputSetters.
Section InputSetters.

(** The store the [setValue] callback writes to is opaque to the hook. *)
Context {Store : Type}.

(** [format(type, value, settings)] of the plugin registry. *)
Variable format : string -> Val -> Val -> Val.

(** The [setValue] prop: it may update the store and may throw. *)
Variable setValue : Val -> Store -> Store * Completion.

(** The [type] and [settings] props of the current render. *)
Variable type : string.
Variable settings : Val.

(** The React state of the hook next to the store it writes to. *)
Record HookState : Type := mkHookState {
  displayValue : Val;
  store : Store
}.

Definition setDisplayValue (v : Val) (h : HookState) : HookState :=
  {| displayValue := v; store := store h |}.

(** [setFormat = (v) => setDisplayValue(format(type, v, settingsRef.current))] *)
Definition setFormat (v : Val) (h : HookState) : HookState :=
  setDisplayValue (format type v settings) h.

(** [const { type, previousValue } = error]: fails on [null] and
    [undefined], reads [undefined] from values without these fields. *)
Definition destructure_error (error : Val) : option (Val * Val) :=
  match error with
  | VUndefined | VNull => None
  | VObj o => Some (prop o "type", prop o "previousValue")
  | _ => Some (VUndefined, VUndefined)
  end.

(** [type !== 'LEVA_ERROR'] *)
Definition is_LEVA_ERROR (t : Val) : bool :=
  match t with
  | VStr s => String.eqb s "LEVA_ERROR"
  | _ => false
  end.

Definition onUpdate (updatedValue : Val) (h : HookState)
  : HookState * Completion :=
  match setValue updatedValue (store h) with
  | (s, Normal) => ({| displayValue := displayValue h; store := s |}, Normal)
  | (s, Throw error) =>
      let h' := {| displayValue := displayValue h; store := s |} in
      match destructure_error error with
      | None => (h', Throw TypeError)
      | Some (type', previousValue) =>
          if is_LEVA_ERROR type' then (setFormat previousValue h', Normal)
          else (h', Throw error)
      end
  end.

Lemma is_LEVA_ERROR_spec t : is_LEVA_ERROR t = true ↔ t = VStr "LEVA_ERROR".
Proof.
  destruct t; simpl; try (split; [discriminate | intros [=]]).
  rewrite String.eqb_eq. split; [by intros -> | by intros [= ->]].
Qed.

(** C1. A committed write whose [setValue] throws a typed sanitization
    failure (type ['LEVA_ERROR'], carrying [previousValue]) completes
    normally and leaves the display value at the formatted
    [previousValue]; a thrown value whose [type] is anything else is
    thrown again, unchanged, and the display value is not touched. *)
Theorem onUpdate_catches_sanitization_failure updatedValue h s error :
  setValue updatedValue (store h) = (s, Throw error) ->
  (forall previousValue,
      destructure_error error = Some (VStr "LEVA_ERROR", previousValue) ->
      onUpdate updatedValue h =
        ({| displayValue := format type previousValue settings; store := s |},
         Normal))
  /\ (forall t previousValue,
      destructure_error error = Some (t, previousValue) ->
      t <> VStr "LEVA_ERROR" ->
      onUpdate updatedValue h =
        ({| displayValue := displayValue h; store := s |}, Throw error)).
Proof.
  intros Hset. unfold onUpdate. rewrite Hset. split.
  - intros previousValue ->. reflexivity.
  - intros t previousValue -> Hne.
    destruct (is_LEVA_ERROR t) eqn:Ht; [|reflexivity].
    apply is_LEVA_ERROR_spec in Ht. contradiction.
Qed.

End InputSetters.

(** *** A number input with [{ min: 0, max: 10 }] *)

(** Modelled from the spec: the store write behind [setValue]
    ([setValueAtPath], whose source is missing) for a number
    entry with settings [{ min: 0, max: 10 }]: a value in range is
    committed, a value out of range leaves the stored value as it was
    and throws a sanitization failure carrying it, and a value that is
    not a number throws an untyped error. *)
Definition setValue_sample (v : Val) (stored : Val) : Val * Completion :=
  match v with
  | VNum n =>
      if ((0 <=? n) && (n <=? 10))%Z then (v, Normal)
      else (stored,
            Throw (VObj {[ "type" := VStr "LEVA_ERROR"; "previousValue" := stored ]}))
  | _ => (stored, Throw (VObj {[ "message" := VStr "Invalid value" ]}))
  end.

(** Modelled from the spec: a formatter (section 4.1) "produces a
    display representation"; here the text of the value. *)
Definition format_sample (type : string) (v settings : Val) : Val :=
  VStr (toString v).

Lemma onUpdate_catches_sanitization_failure_witness :
  onUpdate format_sample setValue_sample "NUMBER" VUndefined (VNum 999)
    {| displayValue := VStr "999"; store := VNum 5 |}
  = ({| displayValue := VStr "5"; store := VNum 5 |}, Normal).
Proof.
  exact (proj1 (onUpdate_catches_sanitization_failure
                  format_sample setValue_sample "NUMBER" VUndefined (VNum 999)
                  {| displayValue := VStr "999"; store := VNum 5 |} (VNum 5)
                  (VObj {[ "type" := VStr "LEVA_ERROR"; "previousValue" := VNum 5 ]})
                  eq_refl)
               (VNum 5) eq_refl).
Defined.

End InputSetters.

(** ** utils/data.ts: the path resolver *)

Module Resolver.

(** Modelled from the spec: [join(rootPath, key)] of the path utilities,
    whose source is missing.  A path is dot-segmented ([folder.sub.key])
    and the root prefix is the empty string, so joining drops empty
    segments and separates the others with a dot. *)
Definition join (rootPath key : string) : string :=
  if String.eqb rootPath "" then key
  else if String.eqb key "" then rootPath
  else rootPath ++ "." ++ key.

(** A schema entry: a folder node ([rawInput.type === SpecialInputs.FOLDER],
    with its own [schema] and [settings]) or any other value, [null] and
    [undefined] included. *)
Inductive RawInput : Type :=
  | Folder (schema : list (string * RawInput)) (settings : Val)
  | Input (raw : Val).

Abbreviation Schema := (list (string * RawInput)).

(** What [warn(LevaErrors.X, ...args)] reports.  The last argument of
    [DUPLICATE_KEYS] is [mappedPaths[key].path], which is [undefined]
    ([None]) when [mappedPaths] only inherits the member [key]. *)
Inductive Warning : Type :=
  | EMPTY_KEY
  | DUPLICATE_KEYS (key newPath : string) (path : option string)
  | UNKNOWN_INPUT (path : string) (rawInput : Val).

(** The result of [normalizeInput]: [{ type, options, input }]. *)
Record NormalizedInput : Type := mkNormalizedInput {
  type : Val;
  options : Obj;
  input : Obj
}.

(** An entry of [MappedPaths]. *)
Record MappedPath : Type := mkMappedPath {
  path : string;
  onChange : Val;
  transient : Val;
  onEditStart : Val;
  onEditEnd : Val
}.

Abbreviation Data := (gmap string Obj).
Abbreviation MappedPaths := (gmap string MappedPath).
Abbreviation Folders := (gmap string Val).

(** What a call of [getDataFromSchema] has done: the [data] object it
    builds, the [mappedPaths] and [folders] objects it shares with its
    caller, which are plain objects, and whether it has thrown.  [data]
    is returned to the caller only by a call that has not thrown. *)
Record Resolved : Type := mkResolved {
  data : Data;
  mappedPaths : MappedPaths;
  folders : Folders;
  completion : Completion
}.

(** [const { onChange, transient, onEditStart, onEditEnd, ..._options } = options] *)
Definition handlers : list string :=
  ["onChange"; "transient"; "onEditStart"; "onEditEnd"].

Definition rest_options (options : Obj) : Obj :=
  delete "onEditEnd" (delete "onEditStart" (delete "transient" (delete "onChange" options))).

(** [{ type, ..._options, ...input, fromPanel: true }]: later members
    override earlier ones. *)
Definition dataItem (n : NormalizedInput) : Obj :=
  <["fromPanel" := VBool true]>
    (input n ∪ (rest_options (options n) ∪ {[ "type" := type n ]})).

Definition mappedPath (newPath : string) (n : NormalizedInput) : MappedPath :=
  {| path := newPath;
     onChange := prop (options n) "onChange";
     transient := prop (options n) "transient";
     onEditStart := prop (options n) "onEditStart";
     onEditEnd := prop (options n) "onEditEnd" |}.

(** Induction over schema trees: a folder's property may use the
    property of every entry of its schema. *)
Section RawInput_nested_ind.
Context (P : RawInput -> Prop).
Hypothesis HInput : forall raw, P (Input raw).
Hypothesis HFolder : forall schema settings,
  Forall (fun entry => P entry.2) schema -> P (Folder schema settings).

Fixpoint RawInput_nested_ind (rawInput : RawInput) : P rawInput :=
  match rawInput with
  | Input raw => HInput raw
  | Folder schema settings =>
      HFolder schema settings
        ((fix entries_ind (entries : Schema)
            : Forall (fun entry => P entry.2) entries :=
            match entries with
            | [] => @Stdlib.Lists.List.Forall_nil _ _
            | entry :: entries' =>
                @Stdlib.Lists.List.Forall_cons _ _ entry entries'
                  (RawInput_nested_ind entry.2) (entries_ind entries')
            end) schema)
  end.
End RawInput_nested_ind.

(** String facts used for paths. *)
Lemma append_assoc (a b c : string) : (a ++ b) ++ c = a ++ (b ++ c).
Proof.
  induction a as [|x a IH]; [done|].
  change (String x ((a ++ b) ++ c) = String x (a ++ (b ++ c))). by rewrite IH.
Qed.

Lemma append_empty_l (a b : string) : a ++ b = "" -> a = "".
Proof. by destruct a. Qed.

Lemma join_root key : join "" key = key.
Proof. reflexivity. Qed.

Lemma join_nonempty rootPath key :
  rootPath <> "" -> key <> "" -> join rootPath key = rootPath ++ "." ++ key.
Proof.
  intros Hr%String.eqb_neq Hk%String.eqb_neq. unfold join. by rewrite Hr, Hk.
Qed.

Lemma join_not_empty rootPath key : key <> "" -> join rootPath key <> "".
Proof.
  intros Hk. unfold join.
  destruct (String.eqb_spec rootPath ""); [done|].
  destruct (String.eqb_spec key ""); [done|].
  by intros ?%append_empty_l.
Qed.

Lemma join_empty_key rootPath : join rootPath "" = rootPath.
Proof. unfold join. by destruct (String.eqb_spec rootPath "") as [->|]. Qed.

Lemma join_assoc a b c : join (join a b) c = join a (join b c).
Proof.
  destruct (decide (a = "")) as [->|Ha]; [by rewrite !join_root|].
  destruct (decide (b = "")) as [->|Hb]; [by rewrite join_empty_key, join_root|].
  destruct (decide (c = "")) as [->|Hc]; [by rewrite !join_empty_key|].
  rewrite (join_nonempty (join a b) c), (join_nonempty a b), (join_nonempty b c),
    (join_nonempty a (b ++ "." ++ c)); auto using join_not_empty.
  - by rewrite !append_assoc.
  - by intros ?%append_empty_l.
Qed.

(** [p] lies below [rootPath]: it is [rootPath] extended by segments. *)
Definition within (rootPath p : string) : Prop :=
  exists rest, rest <> "" /\ p = join rootPath rest.

Lemma within_join rootPath key p :
  key <> "" -> within (join rootPath key) p -> within rootPath p.
Proof.
  intros Hk (rest & Hrest & ->). exists (join key rest). split.
  - by apply join_not_empty.
  - apply join_assoc.
Qed.

Lemma length_append (a b : string) :
  String.length (a ++ b) = String.length a + String.length b.
Proof.
  induction a as [|x a IH]; [done|].
  change (S (String.length (a ++ b)) = S (String.length a + String.length b)).
  by rewrite IH.
Qed.

Lemma within_irrefl p : p <> "" -> ~ within p p.
Proof.
  intros Hp (rest & Hrest & Heq). rewrite join_nonempty in Heq by done.
  apply (f_equal String.length) in Heq. rewrite !length_append in Heq.
  simpl in Heq. lia.
Qed.

Lemma has_false {A} (o : gmap string A) k :
  has o k = false <-> o !! k = None /\ inherited k = false.
Proof.
  unfold has. rewrite orb_false_iff, bool_decide_eq_false, <- eq_None_not_Some. done.
Qed.

Lemma has_true {A} (o : gmap string A) k :
  has o k = true <-> is_Some (o !! k) \/ inherited k = true.
Proof. unfold has. by rewrite orb_true_iff, bool_decide_eq_true. Qed.

Lemma has_own {A} (o : gmap string A) k x : o !! k = Some x -> has o k = true.
Proof. intros Hk. apply has_true. left. by exists x. Qed.

(** What a walk below [rootPath] may do: it keeps every short key and
    folder already recorded, only adds paths, adds no short key and no
    folder path that a plain object inherits, and every path or folder
    it adds lies below [rootPath]; a walk that has not thrown has put
    the path of every short key it mapped in [data]. *)
Record Extends (rootPath : string) (st st' : Resolved) : Prop := mkExtends {
  ext_mappedPaths : mappedPaths st ⊆ mappedPaths st';
  ext_folders : folders st ⊆ folders st';
  ext_data : dom (data st) ⊆ dom (data st');
  ext_completion : completion st' = Normal -> completion st = Normal;
  ext_mapped_in_data : completion st' = Normal -> forall key first,
    mappedPaths st' !! key = Some first ->
    mappedPaths st !! key = Some first \/ path first ∈ dom (data st');
  ext_data_within : forall p,
    p ∈ dom (data st') -> p ∈ dom (data st) \/ within rootPath p;
  ext_folders_within : forall p settings,
    folders st' !! p = Some settings ->
    folders st !! p = Some settings \/ within rootPath p;
  ext_mapped_own : forall key first,
    mappedPaths st' !! key = Some first ->
    mappedPaths st !! key = Some first \/ inherited key = false;
  ext_folders_own : forall p settings,
    folders st' !! p = Some settings ->
    folders st !! p = Some settings \/ inherited p = false
}.

Lemma Extends_refl rootPath st : Extends rootPath st st.
Proof. split; auto. Qed.

Lemma Extends_trans rootPath st1 st2 st3 :
  Extends rootPath st1 st2 -> Extends rootPath st2 st3 -> Extends rootPath st1 st3.
Proof.
  intros [M12 F12 D12 C12 P12 W12 G12 O12 Q12] [M23 F23 D23 C23 P23 W23 G23 O23 Q23].
  split.
  - by etrans.
  - by etrans.
  - by etrans.
  - auto.
  - intros H3 key first Hkey. destruct (P23 H3 _ _ Hkey) as [H2|?]; [|by right].
    destruct (P12 (C23 H3) _ _ H2) as [?|?]; [by left|right]. by apply D23.
  - intros p H3. destruct (W23 _ H3) as [H2|?]; [|by right]. by apply W12.
  - intros p settings H3. destruct (G23 _ _ H3) as [H2|?]; [|by right]. by apply G12.
  - intros key first H3. destruct (O23 _ _ H3) as [H2|?]; [|by right]. by apply O12.
  - intros p settings H3. destruct (Q23 _ _ H3) as [H2|?]; [|by right]. by apply Q12.
Qed.

Section Walk.

(** [normalizeInput] of utils/input, which returns a normalized input
    or nothing when no plugin recognises the value. *)
Variable normalizeInput : Val -> string -> string -> Data -> option NormalizedInput.

(** One turn of [Object.entries(schema).forEach(callback)]: once the
    callback has thrown, the entries that follow are not visited.
    Warnings are collected in the order they are reported. *)
Definition forEach_step (callback : string -> RawInput -> Resolved -> Resolved * list Warning)
    (acc : Resolved * list Warning) (entry : string * RawInput) : Resolved * list Warning :=
  match completion acc.1 with
  | Throw _ => acc
  | Normal =>
      let '(st, ws) := callback entry.1 entry.2 acc.1 in (st, (acc.2 ++ ws)%list)
  end.

Definition forEach (callback : string -> RawInput -> Resolved -> Resolved * list Warning)
    (entries : Schema) (start : Resolved) : Resolved * list Warning :=
  foldl (forEach_step callback) (start, []) entries.

(** [st] after a [TypeError] has been thrown. *)
Definition thrown (error : Val) (st : Resolved) : Resolved :=
  {| data := data st; mappedPaths := mappedPaths st; folders := folders st;
     completion := Throw error |}.

(** The body of the [forEach] callback of [getDataFromSchema], for the
    entry [[key, rawInput]]; [st] holds the [data] of the enclosing
    call and the shared [mappedPaths] and [folders].  Reading
    [rawInput.type] throws for [null] and [undefined].  When the walk of
    a folder's schema throws, the call is left before
    [Object.assign(data, newData)]. *)
Fixpoint visit (rootPath key : string) (rawInput : RawInput) (st : Resolved)
    {struct rawInput} : Resolved * list Warning :=
  if String.eqb key "" then (st, [EMPTY_KEY])
  else
    let newPath := join rootPath key in
    match rawInput with
    | Folder schema settings =>
        let '(sub, ws) :=
          forEach (visit newPath) schema
            {| data := ∅; mappedPaths := mappedPaths st; folders := folders st;
               completion := Normal |} in
        match completion sub with
        | Throw error =>
            ({| data := data st; mappedPaths := mappedPaths sub; folders := folders sub;
                completion := Throw error |}, ws)
        | Normal =>
            ({| data := data sub ∪ data st;
                mappedPaths := mappedPaths sub;
                folders := if has (folders sub) newPath then folders sub
                           else <[newPath := settings]> (folders sub);
                completion := completion st |}, ws)
        end
    | Input raw =>
        if nullish raw then (thrown TypeError st, [])
        else if has (mappedPaths st) key then
          (st, [DUPLICATE_KEYS key newPath (path <$> mappedPaths st !! key)])
        else
          match normalizeInput raw key newPath (data st) with
          | Some normalizedInput =>
              ({| data := <[newPath := dataItem normalizedInput]> (data st);
                  mappedPaths := <[key := mappedPath newPath normalizedInput]> (mappedPaths st);
                  folders := folders st;
                  completion := completion st |}, [])
          | None => (st, [UNKNOWN_INPUT newPath raw])
          end
    end.

Definition getDataFromSchema (schema : Schema) (rootPath : string)
    (mappedPaths : MappedPaths) (folders : Folders) : Resolved * list Warning :=
  forEach (visit rootPath) schema
    {| data := ∅; mappedPaths := mappedPaths; folders := folders; completion := Normal |}.


(** *** Unfolding the walk *)

Implicit Types (st : Resolved) (schema entries : Schema)
  (ws : list Warning) (rawInput : RawInput).

Lemma forEach_step_normal callback st ws0 key rawInput :
  completion st = Normal ->
  forEach_step callback (st, ws0) (key, rawInput)
  = ((callback key rawInput st).1, (ws0 ++ (callback key rawInput st).2)%list).
Proof.
  intros Hst. unfold forEach_step. cbn [fst snd]. rewrite Hst.
  by destruct (callback key rawInput st).
Qed.

Lemma forEach_step_thrown callback st ws0 entry error :
  completion st = Throw error -> forEach_step callback (st, ws0) entry = (st, ws0).
Proof. intros Hst. unfold forEach_step. cbn [fst]. by rewrite Hst. Qed.

Lemma forEach_foldl callback entries st ws0 :
  foldl (forEach_step callback) (st, ws0) entries
  = ((forEach callback entries st).1, (ws0 ++ (forEach callback entries st).2)%list).
Proof.
  unfold forEach. revert st ws0.
  induction entries as [|[key rawInput] entries IH]; intros st ws0; cbn [foldl].
  - simpl. by rewrite app_nil_r.
  - destruct (completion st) as [|error] eqn:Hst.
    + rewrite !forEach_step_normal by done.
      rewrite (IH _ (ws0 ++ _)%list), (IH _ ([] ++ _)%list). simpl.
      by rewrite <- app_assoc.
    + rewrite !(forEach_step_thrown _ _ _ _ error) by done. apply IH.
Qed.

Lemma forEach_nil callback st : forEach callback [] st = (st, []).
Proof. reflexivity. Qed.

(** Nothing is visited once the walk has thrown. *)
Lemma forEach_thrown callback entries st error :
  completion st = Throw error -> forEach callback entries st = (st, []).
Proof.
  intros Hst. unfold forEach.
  induction entries as [|entry entries IH]; [done|].
  cbn [foldl]. by rewrite (forEach_step_thrown _ _ _ _ error).
Qed.

Lemma forEach_cons callback key rawInput entries st :
  completion st = Normal ->
  forEach callback ((key, rawInput) :: entries) st
  = ((forEach callback entries (callback key rawInput st).1).1,
     ((callback key rawInput st).2
        ++ (forEach callback entries (callback key rawInput st).1).2)%list).
Proof.
  intros Hst. unfold forEach at 1. cbn [foldl].
  rewrite forEach_step_normal by done. simpl. apply forEach_foldl.
Qed.

Lemma forEach_app callback entries1 entries2 st :
  forEach callback (entries1 ++ entries2) st
  = ((forEach callback entries2 (forEach callback entries1 st).1).1,
     ((forEach callback entries1 st).2
        ++ (forEach callback entries2 (forEach callback entries1 st).1).2)%list).
Proof.
  unfold forEach at 1. rewrite foldl_app.
  fold (forEach callback entries1 st).
  destruct (forEach callback entries1 st) as [st1 ws1]. simpl.
  apply forEach_foldl.
Qed.

Lemma visit_empty_key rootPath rawInput st :
  visit rootPath "" rawInput st = (st, [EMPTY_KEY]).
Proof. by destruct rawInput. Qed.

Lemma visit_folder rootPath key schema settings st :
  key <> "" ->
  visit rootPath key (Folder schema settings) st
  = let sub := getDataFromSchema schema (join rootPath key) (mappedPaths st) (folders st) in
    match completion sub.1 with
    | Throw error =>
        ({| data := data st; mappedPaths := mappedPaths sub.1; folders := folders sub.1;
            completion := Throw error |}, sub.2)
    | Normal =>
        ({| data := data sub.1 ∪ data st;
            mappedPaths := mappedPaths sub.1;
            folders := if has (folders sub.1) (join rootPath key) then folders sub.1
                       else <[join rootPath key := settings]> (folders sub.1);
            completion := completion st |}, sub.2)
    end.
Proof.
  intros Hkey%String.eqb_neq. simpl. rewrite Hkey.
  unfold getDataFromSchema.
  by destruct (forEach _ schema _).
Qed.

Lemma visit_nullish rootPath key raw st :
  key <> "" -> nullish raw = true ->
  visit rootPath key (Input raw) st = (thrown TypeError st, []).
Proof. intros Hkey%String.eqb_neq Hraw. simpl. by rewrite Hkey, Hraw. Qed.

Lemma visit_input rootPath key raw st :
  key <> "" -> nullish raw = false ->
  visit rootPath key (Input raw) st
  = if has (mappedPaths st) key then
      (st, [DUPLICATE_KEYS key (join rootPath key) (path <$> mappedPaths st !! key)])
    else
      match normalizeInput raw key (join rootPath key) (data st) with
      | Some n =>
          ({| data := <[join rootPath key := dataItem n]> (data st);
              mappedPaths := <[key := mappedPath (join rootPath key) n]> (mappedPaths st);
              folders := folders st;
              completion := completion st |}, [])
      | None => (st, [UNKNOWN_INPUT (join rootPath key) raw])
      end.
Proof. intros Hkey%String.eqb_neq Hraw. simpl. by rewrite Hkey, Hraw. Qed.

(** An entry that is reached and changes nothing can be left out of the
    schema: the walk ends in the same way, without the warnings of that
    entry. *)
Lemma forEach_skip callback entries1 key rawInput entries2 st ws :
  completion (forEach callback entries1 st).1 = Normal ->
  callback key rawInput (forEach callback entries1 st).1
    = ((forEach callback entries1 st).1, ws) ->
  forEach callback (entries1 ++ (key, rawInput) :: entries2) st
  = ((forEach callback (entries1 ++ entries2) st).1,
     ((forEach callback entries1 st).2 ++ ws
        ++ (forEach callback entries2 (forEach callback entries1 st).1).2)%list).
Proof.
  intros Hreached Hskip. rewrite !forEach_app, forEach_cons, Hskip by done. reflexivity.
Qed.


(** *** What a walk keeps *)

Lemma forEach_extends rootPath entries :
  Forall (fun entry => forall rootPath key st,
            Extends rootPath st (visit rootPath key entry.2 st).1) entries ->
  forall st, Extends rootPath st (forEach (visit rootPath) entries st).1.
Proof.
  induction 1 as [|[key rawInput] entries Hentry _ IH]; intros st.
  - apply Extends_refl.
  - destruct (completion st) as [|error] eqn:Hst.
    + rewrite forEach_cons by done. simpl.
      eapply Extends_trans; [apply Hentry | apply IH].
    + rewrite (forEach_thrown _ _ _ error) by done. apply Extends_refl.
Qed.

Lemma visit_extends rawInput :
  forall rootPath key st, Extends rootPath st (visit rootPath key rawInput st).1.
Proof.
  induction rawInput as [raw|schema settings IH] using RawInput_nested_ind;
    intros rootPath key st.
  - destruct (decide (key = "")) as [->|Hkey].
    { rewrite visit_empty_key. apply Extends_refl. }
    destruct (nullish raw) eqn:Hraw.
    { rewrite visit_nullish by done. split; simpl; auto; done. }
    rewrite visit_input by done.
    destruct (has (mappedPaths st) key) eqn:Hmapped; [apply Extends_refl|].
    apply has_false in Hmapped as [Hmapped Hown].
    destruct (normalizeInput raw key (join rootPath key) (data st)) as [n|];
      [|apply Extends_refl].
    split; simpl.
    + by apply insert_subseteq.
    + done.
    + rewrite dom_insert_L. set_solver.
    + done.
    + intros _ key' first. rewrite lookup_insert. case_decide as Hk.
      * intros [= <-]. right. simpl. rewrite dom_insert_L. set_solver.
      * by left.
    + intros p. rewrite dom_insert_L, elem_of_union, elem_of_singleton.
      intros [->|?]; [right|by left]. by exists key.
    + by left.
    + intros key' first. rewrite lookup_insert. case_decide as Hk; [|by left].
      subst key'. by right.
    + by left.
  - destruct (decide (key = "")) as [->|Hkey].
    { rewrite visit_empty_key. apply Extends_refl. }
    rewrite visit_folder by done. cbv zeta.
    pose proof (forEach_extends (join rootPath key) schema IH
                  {| data := ∅; mappedPaths := mappedPaths st; folders := folders st;
                     completion := Normal |})
      as [M F D C P W G O Q].
    fold (getDataFromSchema schema (join rootPath key) (mappedPaths st) (folders st)) in *.
    set (sub := getDataFromSchema schema (join rootPath key) (mappedPaths st) (folders st)) in *.
    simpl in *.
    destruct (completion sub.1) as [|error] eqn:Hsub; split; simpl.
    + done.
    + destruct (has (folders sub.1) (join rootPath key)) eqn:Hf; [done|].
      apply has_false in Hf as [Hf _].
      etrans; [apply F|]. by apply insert_subseteq.
    + rewrite dom_union_L. set_solver.
    + done.
    + intros _ key' first H'. destruct (P eq_refl _ _ H') as [?|?]; [by left|right].
      rewrite dom_union_L. set_solver.
    + intros p. rewrite dom_union_L, elem_of_union. intros [Hp|?]; [right|by left].
      destruct (W _ Hp) as [Hp'|Hp']; [set_solver|]. by apply (within_join _ key).
    + intros p settings' Hp.
      assert (folders sub.1 !! p = Some settings' \/ p = join rootPath key) as [Hp'| ->].
      { destruct (has (folders sub.1) (join rootPath key)) eqn:Hf; [by left|].
        revert Hp. rewrite lookup_insert. case_decide; [by right|by left]. }
      * destruct (G _ _ Hp') as [?|?]; [by left|right]. by apply (within_join _ key).
      * right. exists key. by split.
    + done.
    + intros p settings' Hp.
      destruct (has (folders sub.1) (join rootPath key)) eqn:Hf; [by apply Q in Hp|].
      apply has_false in Hf as [Hf Hown].
      revert Hp. rewrite lookup_insert. case_decide as Hp'.
      * subst p. by right.
      * apply Q.
    + done.
    + done.
    + done.
    + done.
    + done.
    + intros p Hp. by left.
    + intros p settings' Hp.
      destruct (G _ _ Hp) as [?|?]; [by left|right]. by apply (within_join _ key).
    + done.
    + done.
Qed.

Lemma getDataFromSchema_extends schema rootPath M0 F0 :
  Extends rootPath
    {| data := ∅; mappedPaths := M0; folders := F0; completion := Normal |}
    (getDataFromSchema schema rootPath M0 F0).1.
Proof.
  apply forEach_extends, Forall_forall. intros entry _. apply visit_extends.
Qed.

Lemma forEach_visit_extends rootPath entries st :
  Extends rootPath st (forEach (visit rootPath) entries st).1.
Proof.
  apply forEach_extends, Forall_forall. intros entry _. apply visit_extends.
Qed.

(** An input that is reached with a short key that [mappedPaths] neither
    has nor inherits, and that the normalizer recognises, is registered. *)
Lemma visit_registers rootPath key raw st n :
  key <> "" -> nullish raw = false -> has (mappedPaths st) key = false ->
  normalizeInput raw key (join rootPath key) (data st) = Some n ->
  visit rootPath key (Input raw) st
  = ({| data := <[join rootPath key := dataItem n]> (data st);
        mappedPaths := <[key := mappedPath (join rootPath key) n]> (mappedPaths st);
        folders := folders st;
        completion := completion st |}, []).
Proof. intros Hkey Hraw Hmapped Hnorm. by rewrite visit_input, Hmapped, Hnorm. Qed.

(** ... and it stays registered until the walk ends. *)
Lemma forEach_registers rootPath earlier key raw later st n :
  completion (forEach (visit rootPath) earlier st).1 = Normal ->
  key <> "" -> nullish raw = false ->
  has (mappedPaths (forEach (visit rootPath) earlier st).1) key = false ->
  normalizeInput raw key (join rootPath key) (data (forEach (visit rootPath) earlier st).1)
    = Some n ->
  mappedPaths (forEach (visit rootPath) (earlier ++ (key, Input raw) :: later) st).1 !! key
    = Some (mappedPath (join rootPath key) n)
  /\ join rootPath key
       ∈ dom (data (forEach (visit rootPath) (earlier ++ (key, Input raw) :: later) st).1).
Proof.
  intros Hreached Hkey Hraw Hmapped Hnorm.
  rewrite forEach_app, forEach_cons by done. cbn [fst snd].
  rewrite (visit_registers _ _ _ _ n) by done. cbn [fst snd].
  match goal with
  | |- context [forEach (visit rootPath) later ?st'] =>
      pose proof (forEach_visit_extends rootPath later st') as [M _ D _ _ _ _ _ _]
  end.
  simpl in M, D. split.
  - eapply lookup_weaken; [|exact M]. by rewrite lookup_insert_eq.
  - apply D. rewrite dom_insert_L. set_solver.
Qed.

(** A walk that has returned has met each of its entries without a
    throw, so none of its input entries is [null] or [undefined]. *)
Lemma forEach_returned callback entries1 entries2 st :
  completion (forEach callback (entries1 ++ entries2) st).1 = Normal ->
  completion (forEach callback entries1 st).1 = Normal.
Proof.
  rewrite forEach_app. cbn [fst].
  destruct (completion (forEach callback entries1 st).1) as [|error] eqn:Hmet; [done|].
  rewrite (forEach_thrown _ _ _ error) by done. cbn [fst]. by rewrite Hmet.
Qed.

Lemma getDataFromSchema_registers rootPath earlier key raw later M0 F0 n :
  let met := (getDataFromSchema earlier rootPath M0 F0).1 in
  let result := (getDataFromSchema (earlier ++ (key, Input raw) :: later) rootPath M0 F0).1 in
  completion result = Normal ->
  key <> "" ->
  has (mappedPaths met) key = false ->
  normalizeInput raw key (join rootPath key) (data met) = Some n ->
  mappedPaths result !! key = Some (mappedPath (join rootPath key) n)
  /\ join rootPath key ∈ dom (data result).
Proof.
  intros met result Hreturned Hkey Hmapped Hnorm.
  assert (completion met = Normal) as Hmet.
  { by apply (forEach_returned _ _ ((key, Input raw) :: later)). }
  apply forEach_registers; [done..| |done|done].
  destruct (nullish raw) eqn:Hraw; [|done].
  revert Hreturned. unfold result, getDataFromSchema.
  rewrite forEach_app, forEach_cons by done. cbn [fst snd].
  rewrite visit_nullish by done. cbn [fst].
  by rewrite (forEach_thrown _ _ _ TypeError).
Qed.

(** In a walk that returns, every input entry with a non-empty key is
    put in [data] at its path or reported. *)
Lemma forEach_input_processed rootPath entries st key raw :
  (key, Input raw) ∈ entries -> key <> "" ->
  completion (forEach (visit rootPath) entries st).1 = Normal ->
  join rootPath key ∈ dom (data (forEach (visit rootPath) entries st).1)
  \/ (exists first,
        DUPLICATE_KEYS key (join rootPath key) first ∈ (forEach (visit rootPath) entries st).2)
  \/ UNKNOWN_INPUT (join rootPath key) raw ∈ (forEach (visit rootPath) entries st).2.
Proof.
  intros Hin Hkey. revert st.
  induction entries as [|[key' rawInput'] entries IH]; intros st.
  { by apply elem_of_nil in Hin. }
  destruct (completion st) as [|error] eqn:Hst.
  2: { rewrite (forEach_thrown _ _ _ error) by done. simpl. by rewrite Hst. }
  rewrite forEach_cons by done. cbn [fst snd]. intros Hreturned.
  apply elem_of_cons in Hin as [[= <- <-]|Hin].
  - destruct (nullish raw) eqn:Hraw.
    { revert Hreturned. rewrite visit_nullish by done.
      by rewrite (forEach_thrown _ _ _ TypeError). }
    revert Hreturned. rewrite visit_input by done.
    destruct (has (mappedPaths st) key).
    { intros _. right; left. eexists. simpl. apply elem_of_cons. by left. }
    destruct (normalizeInput raw key (join rootPath key) (data st)) as [n|].
    + intros _. left. simpl.
      eapply (ext_data rootPath); [apply forEach_visit_extends|].
      simpl. rewrite dom_insert_L. set_solver.
    + intros _. right; right. simpl. apply elem_of_cons. by left.
  - destruct (IH Hin (visit rootPath key' rawInput' st).1 Hreturned) as [?|[[first ?]|?]].
    + by left.
    + right; left. exists first. apply elem_of_app. by right.
    + right; right. apply elem_of_app. by right.
Qed.

(** What a reported duplicate says of the short-key mapping: the path
    it names is the path its key is mapped to, and stays so; when it
    names none, the key is inherited by [mappedPaths], not mapped. *)
Definition reports_mapping (ws : list Warning) (st' : Resolved) : Prop :=
  forall k newPath firstPath,
    DUPLICATE_KEYS k newPath firstPath ∈ ws ->
    match firstPath with
    | Some p => exists first, mappedPaths st' !! k = Some first /\ path first = p
    | None => inherited k = true /\ mappedPaths st' !! k = None
    end.

Lemma reports_mapping_app rootPath ws1 ws2 st1 st2 :
  Extends rootPath st1 st2 ->
  reports_mapping ws1 st1 -> reports_mapping ws2 st2 ->
  reports_mapping (ws1 ++ ws2) st2.
Proof.
  intros Hext H1 H2 k newPath firstPath [Hin|Hin]%elem_of_app; [|by apply H2 in Hin].
  apply H1 in Hin. destruct firstPath as [p|].
  - destruct Hin as (first & Hfirst & Hpath). exists first. split; [|done].
    eapply lookup_weaken; [done|]. apply Hext.
  - destruct Hin as [Hinherited Hnone]. split; [done|].
    destruct (mappedPaths st2 !! k) as [first|] eqn:Hk; [|done].
    destruct (ext_mapped_own _ _ _ Hext _ _ Hk); congruence.
Qed.

Lemma forEach_duplicates rootPath entries :
  Forall (fun entry => forall rootPath key st,
            reports_mapping (visit rootPath key entry.2 st).2
              (visit rootPath key entry.2 st).1) entries ->
  forall st,
    reports_mapping (forEach (visit rootPath) entries st).2
      (forEach (visit rootPath) entries st).1.
Proof.
  induction 1 as [|[key rawInput] entries Hentry _ IH]; intros st.
  - rewrite forEach_nil. intros k newPath firstPath. simpl. by intros ?%elem_of_nil.
  - destruct (completion st) as [|error] eqn:Hst.
    + rewrite forEach_cons by done. cbn [fst snd].
      eapply reports_mapping_app; [apply forEach_visit_extends|apply Hentry|apply IH].
    + rewrite (forEach_thrown _ _ _ error) by done.
      intros k newPath firstPath. simpl. by intros ?%elem_of_nil.
Qed.

Lemma visit_duplicates rawInput :
  forall rootPath key st,
    reports_mapping (visit rootPath key rawInput st).2 (visit rootPath key rawInput st).1.
Proof.
  induction rawInput as [raw|schema settings IH] using RawInput_nested_ind;
    intros rootPath key st.
  - destruct (decide (key = "")) as [->|Hkey].
    { rewrite visit_empty_key. intros k newPath firstPath. simpl.
      by intros [=]%list_elem_of_singleton. }
    destruct (nullish raw) eqn:Hraw.
    { rewrite visit_nullish by done. intros k newPath firstPath. simpl.
      by intros ?%elem_of_nil. }
    rewrite visit_input by done.
    destruct (has (mappedPaths st) key) eqn:Hmapped.
    { intros k newPath firstPath. simpl. intros Heq%list_elem_of_singleton.
      injection Heq as -> -> ->.
      destruct (mappedPaths st !! key) as [first|] eqn:Hfirst; simpl; [eauto|].
      split; [|done]. apply has_true in Hmapped as [[? Hsome]|?]; congruence. }
    destruct (normalizeInput raw key (join rootPath key) (data st)) as [n|];
      intros k newPath firstPath; simpl.
    + by intros ?%elem_of_nil.
    + by intros [=]%list_elem_of_singleton.
  - destruct (decide (key = "")) as [->|Hkey].
    { rewrite visit_empty_key. intros k newPath firstPath. simpl.
      by intros [=]%list_elem_of_singleton. }
    rewrite visit_folder by done. cbv zeta.
    pose proof (forEach_duplicates (join rootPath key) schema IH
                  {| data := ∅; mappedPaths := mappedPaths st; folders := folders st;
                     completion := Normal |}) as Hsub.
    fold (getDataFromSchema schema (join rootPath key) (mappedPaths st) (folders st)) in Hsub.
    by destruct (completion _).
Qed.

Lemma getDataFromSchema_duplicates schema rootPath M0 F0 :
  reports_mapping (getDataFromSchema schema rootPath M0 F0).2
    (getDataFromSchema schema rootPath M0 F0).1.
Proof.
  apply forEach_duplicates, Forall_forall. intros entry _. apply visit_duplicates.
Qed.

(** *** The properties of the walk *)

(** C3. When the walk reaches an input whose key the short-key mapping
    already holds, it reports the duplicate, naming the first path, and
    drops that second occurrence: the entry changes neither [data] nor
    [mappedPaths] (the walk ends as if the entry were not in the
    schema), the key stays mapped to the first path, and that first
    path, when it was mapped during this walk, is in [data].  Every
    duplicate reported at any depth of the schema names the path its
    key is mapped to; one that names no path is reported for a key that
    [mappedPaths] inherits, which is never mapped. *)
Theorem duplicate_key_first_wins rootPath entries1 key raw entries2 M0 F0 first :
  let before := getDataFromSchema entries1 rootPath M0 F0 in
  let after := getDataFromSchema (entries1 ++ (key, Input raw) :: entries2) rootPath M0 F0 in
  let without := getDataFromSchema (entries1 ++ entries2) rootPath M0 F0 in
  completion before.1 = Normal ->
  key <> "" -> nullish raw = false ->
  mappedPaths before.1 !! key = Some first ->
  visit rootPath key (Input raw) before.1
    = (before.1, [DUPLICATE_KEYS key (join rootPath key) (Some (path first))])
  /\ DUPLICATE_KEYS key (join rootPath key) (Some (path first)) ∈ after.2
  /\ after.1 = without.1
  /\ mappedPaths after.1 !! key = Some first
  /\ (M0 !! key = None -> path first ∈ dom (data after.1))
  /\ (forall p, p ∈ dom (data before.1) -> p ∈ dom (data after.1))
  /\ (forall key' newPath' firstPath,
        DUPLICATE_KEYS key' newPath' (Some firstPath) ∈ after.2 ->
        exists first',
          mappedPaths after.1 !! key' = Some first'
          /\ path first' = firstPath
          /\ (completion after.1 = Normal -> M0 !! key' = None ->
              firstPath ∈ dom (data after.1)))
  /\ (forall key' newPath',
        DUPLICATE_KEYS key' newPath' None ∈ after.2 ->
        inherited key' = true /\ mappedPaths after.1 !! key' = None).
Proof.
  intros before after without Hreached Hkey Hraw Hfirst.
  assert (visit rootPath key (Input raw) before.1
          = (before.1, [DUPLICATE_KEYS key (join rootPath key) (Some (path first))]))
    as Hvisit.
  { rewrite visit_input by done. by rewrite (has_own _ _ first), Hfirst. }
  pose proof (forEach_skip (visit rootPath) entries1 key (Input raw) entries2
                {| data := ∅; mappedPaths := M0; folders := F0; completion := Normal |}
                _ Hreached Hvisit) as Hskip.
  fold (getDataFromSchema (entries1 ++ (key, Input raw) :: entries2) rootPath M0 F0) in Hskip.
  fold (getDataFromSchema (entries1 ++ entries2) rootPath M0 F0) in Hskip.
  fold (getDataFromSchema entries1 rootPath M0 F0) in Hskip.
  fold before after without in Hskip.
  assert (Extends rootPath before.1 after.1) as Hext.
  { rewrite Hskip. simpl. unfold without, getDataFromSchema.
    rewrite forEach_app. simpl. apply forEach_visit_extends. }
  pose proof (getDataFromSchema_duplicates
                (entries1 ++ (key, Input raw) :: entries2) rootPath M0 F0) as Hdup.
  fold after in Hdup.
  split_and!.
  - done.
  - rewrite Hskip. simpl. rewrite !elem_of_app, elem_of_cons. right; by left.
  - by rewrite Hskip.
  - eapply lookup_weaken; [done|]. apply Hext.
  - intros HM0.
    destruct (ext_mapped_in_data _ _ _ (getDataFromSchema_extends entries1 rootPath M0 F0)
                Hreached key first Hfirst) as [Hold|Hin].
    + simpl in Hold. congruence.
    + by apply (ext_data _ _ _ Hext).
  - intros p. apply (ext_data _ _ _ Hext).
  - intros key' newPath' firstPath Hin.
    destruct (Hdup _ _ _ Hin) as (first' & Hfirst' & Hpath).
    exists first'. split_and!; [done..|]. intros Hreturned HM0.
    destruct (ext_mapped_in_data _ _ _
                (getDataFromSchema_extends
                   (entries1 ++ (key, Input raw) :: entries2) rootPath M0 F0)
                Hreturned key' first' Hfirst') as [Hold|Hdata].
    + simpl in Hold. congruence.
    + by rewrite <- Hpath.
  - intros key' newPath' Hin. apply (Hdup _ _ _ Hin).
Qed.


(** The four side-effect-only members of the options are not among the
    options that are merged into the stored item. *)
Lemma rest_options_lookup (options : Obj) k :
  rest_options options !! k = if decide (k ∈ handlers) then None else options !! k.
Proof.
  unfold rest_options. rewrite !lookup_delete.
  destruct (decide (k ∈ handlers)) as [Hin|Hnin].
  - unfold handlers in Hin. rewrite !elem_of_cons in Hin.
    destruct Hin as [->|[->|[->|[->|Hin]]]];
      [by repeat case_decide..|by apply elem_of_nil in Hin].
  - repeat case_decide; try done; subst; exfalso; apply Hnin;
      unfold handlers; rewrite !elem_of_cons; tauto.
Qed.

(** Under the four names the stored item has what the normalizer's
    input part has there: nothing comes from the options. *)
Lemma dataItem_handlers (n : NormalizedInput) h :
  h ∈ handlers -> dataItem n !! h = input n !! h.
Proof.
  intros Hh.
  assert (h <> "fromPanel" /\ h <> "type") as [? ?].
  { unfold handlers in Hh. rewrite !elem_of_cons in Hh.
    destruct Hh as [->|[->|[->|[->|Hh]]]];
      [by split..|by apply elem_of_nil in Hh]. }
  unfold dataItem. rewrite lookup_insert_ne by done.
  rewrite lookup_union.
  rewrite lookup_union_l by (by rewrite lookup_singleton_ne).
  rewrite rest_options_lookup, decide_True by done.
  by destruct (input n !! h).
Qed.

Section Input_part.

(** Modelled from the spec: the source of [normalizeInput] is missing.
    The input part of its result is what the Schema Normalizer computes
    for the entry itself (section 4.1; a plugin's [normalize] converts
    the user input into a normalized [{ value, settings }] object,
    docs/advanced/creating-plugins.md), while [onChange], [transient],
    [onEditStart] and [onEditEnd] are options of the entry (section 3),
    so they are never members of the input part. *)
Hypothesis normalizeInput_input :
  forall raw key newPath data n h,
    normalizeInput raw key newPath data = Some n ->
    h ∈ handlers -> input n !! h = None.


End Input_part.

(** A walk below [newPath] does not record settings for [newPath]
    itself. *)
Lemma getDataFromSchema_folder_path schema newPath M F :
  newPath <> "" ->
  folders (getDataFromSchema schema newPath M F).1 !! newPath = F !! newPath.
Proof.
  intros Hnew.
  pose proof (getDataFromSchema_extends schema newPath M F) as Hsub.
  destruct (folders (getDataFromSchema schema newPath M F).1 !! newPath)
    as [recorded|] eqn:Hrec.
  - destruct (ext_folders_within _ _ _ Hsub _ _ Hrec) as [Hold|Hin]; [done|].
    by apply within_irrefl in Hin.
  - destruct (F !! newPath) as [old|] eqn:Hold; [|done].
    pose proof (ext_folders _ _ _ Hsub) as Hsubseteq. simpl in Hsubseteq.
    by rewrite (lookup_weaken _ _ _ _ Hold Hsubseteq) in Hrec.
Qed.

(** C7. For a folder node the walk recurses into the folder's schema
    with [join rootPath key] as the new prefix (every path the
    recursion returns lies below it) and, unless the recursion throws,
    merges the result.  The folder's settings are recorded only when
    [folders] has no member of that path: settings recorded before are
    kept, and nothing is recorded for a path that [folders] inherits
    from [Object.prototype].  Once recorded they are kept by every
    later walk. *)
Theorem folder_settings_first_wins rootPath key schema settings st :
  key <> "" ->
  let newPath := join rootPath key in
  let sub := getDataFromSchema schema newPath (mappedPaths st) (folders st) in
  let result := visit rootPath key (Folder schema settings) st in
  mappedPaths result.1 = mappedPaths sub.1
  /\ result.2 = sub.2
  /\ (forall p, p ∈ dom (data sub.1) ->
        exists rest, rest <> "" /\ p = newPath ++ "." ++ rest)
  /\ match completion sub.1 with
     | Normal =>
         data result.1 = data sub.1 ∪ data st
         /\ completion result.1 = completion st
         /\ folders result.1 !! newPath
            = match folders st !! newPath with
              | Some recorded => Some recorded
              | None => if inherited newPath then None else Some settings
              end
     | Throw error =>
         data result.1 = data st
         /\ completion result.1 = Throw error
         /\ folders result.1 !! newPath = folders st !! newPath
     end
  /\ (forall p, p <> newPath -> folders result.1 !! p = folders sub.1 !! p)
  /\ (forall recorded rootPath' entries,
        folders result.1 !! newPath = Some recorded ->
        folders (forEach (visit rootPath') entries result.1).1 !! newPath
        = Some recorded).
Proof.
  intros Hkey newPath sub result. subst result.
  rewrite visit_folder by done. fold newPath sub. cbv zeta.
  pose proof (getDataFromSchema_extends schema newPath (mappedPaths st) (folders st))
    as Hsub.
  fold sub in Hsub.
  assert (newPath <> "") as Hnew by by apply join_not_empty.
  pose proof (getDataFromSchema_folder_path schema newPath (mappedPaths st) (folders st)
                Hnew) as Hpath.
  fold sub in Hpath.
  assert (forall p, p ∈ dom (data sub.1) ->
            exists rest, rest <> "" /\ p = newPath ++ "." ++ rest) as Hbelow.
  { intros p Hp.
    destruct (ext_data_within _ _ _ Hsub p Hp) as [Hempty|(rest & Hrest & ->)].
    - simpl in Hempty. by rewrite dom_empty_L in Hempty.
    - exists rest. split; [done|]. by apply join_nonempty. }
  assert (forall st' recorded rootPath' entries,
            folders st' !! newPath = Some recorded ->
            folders (forEach (visit rootPath') entries st').1 !! newPath = Some recorded)
    as Hkept.
  { intros st' recorded rootPath' entries Hrec.
    eapply lookup_weaken; [done|].
    apply (ext_folders rootPath'), forEach_visit_extends. }
  destruct (completion sub.1) as [|error] eqn:Hcompletion; cbn [fst snd];
    (refine (conj _ (conj _ (conj _ (conj _ (conj _ _)))));
     [| | | | |intros recorded rootPath' entries; apply Hkept]);
    cbn [data mappedPaths completion folders]; try done.
  - split_and!; [done|done|].
    destruct (has (folders sub.1) newPath) eqn:Hhas.
    + rewrite Hpath. apply has_true in Hhas. rewrite Hpath in Hhas.
      destruct (folders st !! newPath) as [recorded|]; [done|].
      destruct Hhas as [[? [=]]| ->]. done.
    + apply has_false in Hhas as [Hnone ->]. rewrite Hpath in Hnone.
      by rewrite lookup_insert_eq, Hnone.
  - intros p Hp. destruct (has (folders sub.1) newPath); [done|].
    by rewrite lookup_insert_ne.
Qed.


End Walk.

(** *** The walk on concrete schemas *)

(** Modelled from the spec: the Schema Normalizer (section 4.1), whose
    source is missing, on a few shapes only: a number, a
    boolean or a string is an input of that type, an options object
    with a [value] member is a number input whose other members are its
    options, and no other shape is recognised. *)
Definition normalize_sample (raw : Val) (key newPath : string) (data : Data)
    : option NormalizedInput :=
  let common : Obj := {[ "key" := VStr key ]} in
  match raw with
  | VNum _ => Some {| type := VStr "NUMBER"; options := common; input := {[ "value" := raw ]} |}
  | VBool _ => Some {| type := VStr "BOOLEAN"; options := common; input := {[ "value" := raw ]} |}
  | VStr _ => Some {| type := VStr "STRING"; options := common; input := {[ "value" := raw ]} |}
  | VObj o =>
      match o !! "value" with
      | Some v => Some {| type := VStr "NUMBER";
                          options := <["key" := VStr key]> (delete "value" o);
                          input := {[ "value" := v ]} |}
      | None => None
      end
  | _ => None
  end.

Definition no_paths : MappedPaths := ∅.
Definition no_folders : Folders := ∅.

(** [{ a: folder({ x: 1 }), x: 2 }]: the second [x] collides with [a.x]. *)
Definition schema_duplicate : Schema :=
  [("a", Folder [("x", Input (VNum 1))] (VObj {[ "collapsed" := VBool false ]}));
   ("x", Input (VNum 2))].

Lemma duplicate_key_first_wins_witness :
  (getDataFromSchema normalize_sample schema_duplicate "" no_paths no_folders).2
    = [DUPLICATE_KEYS "x" "x" (Some "a.x")]
  /\ mappedPaths (getDataFromSchema normalize_sample schema_duplicate "" no_paths no_folders).1
       !! "x"
     = Some {| path := "a.x"; onChange := VUndefined; transient := VUndefined;
               onEditStart := VUndefined; onEditEnd := VUndefined |}
  /\ "a.x" ∈ dom (data (getDataFromSchema normalize_sample schema_duplicate ""
                          no_paths no_folders).1).
Proof.
  pose proof (duplicate_key_first_wins normalize_sample ""
                [("a", Folder [("x", Input (VNum 1))] (VObj {[ "collapsed" := VBool false ]}))]
                "x" (VNum 2) [] no_paths no_folders
                {| path := "a.x"; onChange := VUndefined; transient := VUndefined;
                   onEditStart := VUndefined; onEditEnd := VUndefined |}
                eq_refl ltac:(discriminate) eq_refl eq_refl)
    as (_ & _ & _ & Hfirst & Hdata & _).
  split_and!; [reflexivity | exact Hfirst | exact (Hdata eq_refl)].
Defined.


(** [{ layers: { value: 1, min: 0, onChange: (v) => setLayers(v) } }] *)
Definition raw_with_handler : Val :=
  VObj {[ "value" := VNum 1; "min" := VNum 0;
          "onChange" := VFun "(v) => setLayers(v)" ]}.

Definition nothing_resolved : Resolved :=
  {| data := ∅; mappedPaths := ∅; folders := ∅; completion := Normal |}.

Definition layers_normalized : NormalizedInput :=
  {| type := VStr "NUMBER";
     options := {[ "key" := VStr "layers"; "min" := VNum 0;
                   "onChange" := VFun "(v) => setLayers(v)" ]};
     input := {[ "value" := VNum 1 ]} |}.

Lemma normalize_sample_input raw key newPath data n h :
  normalize_sample raw key newPath data = Some n ->
  h ∈ handlers -> input n !! h = None.
Proof.
  intros Hn Hh.
  assert (h <> "value") as Hvalue.
  { intros ->. unfold handlers in Hh. rewrite !elem_of_cons in Hh.
    destruct Hh as [?|[?|[?|[?|Hh]]]]; [done..|by apply elem_of_nil in Hh]. }
  unfold normalize_sample in Hn.
  destruct raw as [| |b|z|s0|f|items|o]; try discriminate;
    try (injection Hn as <-; simpl; by rewrite lookup_singleton_ne).
  destruct (o !! "value"); [|discriminate].
  injection Hn as <-. simpl. by rewrite lookup_singleton_ne.
Qed.


(** [{ f: folder({ a: 1, b: 2 }, { collapsed: true }) }], resolved when
    the folder [f] already has settings. *)
Definition folder_f : RawInput :=
  Folder [("a", Input (VNum 1)); ("b", Input (VNum 2))]
         (VObj {[ "collapsed" := VBool true ]}).

Definition f_recorded : Resolved :=
  {| data := ∅; mappedPaths := ∅;
     folders := {[ "f" := VObj {[ "collapsed" := VBool false ]} ]};
     completion := Normal |}.

Lemma folder_settings_first_wins_witness :
  folders (visit normalize_sample "" "f" folder_f f_recorded).1 !! "f"
    = Some (VObj {[ "collapsed" := VBool false ]})
  /\ dom (data (visit normalize_sample "" "f" folder_f f_recorded).1)
     = {[ "f.a"; "f.b" ]}.
Proof.
  pose proof (folder_settings_first_wins normalize_sample "" "f"
                [("a", Input (VNum 1)); ("b", Input (VNum 2))]
                (VObj {[ "collapsed" := VBool true ]}) f_recorded ltac:(discriminate))
    as (_ & _ & _ & (_ & _ & Hsettings) & _).
  split; [exact Hsettings | by vm_compute].
Defined.

(** [{ toString: folder({ a: 1 }, { collapsed: true }) }]: every plain
    object inherits a member [toString], so [folders] is taken to have
    settings for that path and none are recorded. *)
Example folder_toString_not_recorded :
  folders (visit normalize_sample "" "toString"
             (Folder [("a", Input (VNum 1))] (VObj {[ "collapsed" := VBool true ]}))
             nothing_resolved).1 !! "toString" = None
  /\ dom (data (visit normalize_sample "" "toString"
                  (Folder [("a", Input (VNum 1))] (VObj {[ "collapsed" := VBool true ]}))
                  nothing_resolved).1) = {[ "toString.a" ]}.
Proof. by vm_compute. Qed.

(** [{ constructor: 1 }]: every plain object inherits a member
    [constructor], so the key is reported as a duplicate of no path and
    the input is not registered. *)
Example inherited_key_reported :
  getDataFromSchema normalize_sample [("constructor", Input (VNum 1))] "" no_paths no_folders
  = (nothing_resolved, [DUPLICATE_KEYS "constructor" "constructor" None]).
Proof. by vm_compute. Qed.

(** [{ a: 1, b: null, c: 2 }]: reading [type] of [null] throws, the walk
    is left and [c] is not visited. *)
Example null_value_throws :
  getDataFromSchema normalize_sample
    [("a", Input (VNum 1)); ("b", Input VNull); ("c", Input (VNum 2))] "" no_paths no_folders
  = (thrown TypeError
       (getDataFromSchema normalize_sample [("a", Input (VNum 1))] "" no_paths no_folders).1,
     []).
Proof. by vm_compute. Qed.

(** [{ folder1: folder({ x: 1 }), folder2: folder({ x: 2 }) }]: only the
    first [x] is registered, the second is reported and is in neither
    object. *)
Example two_folders_same_key :
  let result :=
    getDataFromSchema normalize_sample
      [("folder1", Folder [("x", Input (VNum 1))] VUndefined);
       ("folder2", Folder [("x", Input (VNum 2))] VUndefined)] "" no_paths no_folders in
  dom (data result.1) = {[ "folder1.x" ]}
  /\ path <$> mappedPaths result.1 = {[ "x" := "folder1.x" ]}
  /\ result.2 = [DUPLICATE_KEYS "x" "folder2.x" (Some "folder1.x")]
  /\ dom (folders result.1) = {[ "folder1"; "folder2" ]}
  /\ completion result.1 = Normal.
Proof. by vm_compute. Qed.

(** [{ a: folder({ x: 1, y: null }), b: 2 }]: the throw inside the folder
    leaves the outer walk too; [x] has been mapped, but the data of the
    folder is not merged and its settings are not recorded. *)
Example throw_in_folder :
  let result :=
    getDataFromSchema normalize_sample
      [("a", Folder [("x", Input (VNum 1)); ("y", Input VNull)] VUndefined);
       ("b", Input (VNum 2))] "" no_paths no_folders in
  completion result.1 = Throw TypeError
  /\ data result.1 = ∅
  /\ dom (mappedPaths result.1) = {[ "x" ]}
  /\ folders result.1 = ∅
  /\ result.2 = [].
Proof. by vm_compute. Qed.


End Resolver.
(** ** utils/data.ts, hooks/useValuesForPath.ts and hooks/useValue.ts:
    value snapshots *)

Module Snapshot.

(** The entries of an object, in insertion order: assigning to a key
    the object already has keeps the key's place. *)
Fixpoint assign (key : string) (v : Obj) (entries : list (string * Obj))
    : list (string * Obj) :=
  match entries with
  | [] => [(key, v)]
  | (k, x) :: rest =>
      if String.eqb k key then (k, v) :: rest else (k, x) :: assign key v rest
  end.

(** Modelled from the spec: [pick(object, keys)] of the utilities, whose
    source is missing.  The snapshot is taken for the given paths, so
    [pick] keeps the listed keys that the object has; its result is given
    by its entries in the order they were first picked. *)
Definition pick (object : gmap string Obj) (keys : list string) : list (string * Obj) :=
  foldl (fun obj key =>
           match object !! key with
           | Some v => assign key v obj
           | None => obj
           end) [] keys.

(** The number that a string of decimal digits denotes. *)
Fixpoint digits (s : string) (acc : N) : option N :=
  match s with
  | EmptyString => Some acc
  | String c rest =>
      match Ascii.is_nat c with
      | Some d => digits rest (10 * acc + N.of_nat d)%N
      | None => None
      end
  end.

(** An array index is a canonical numeric string below [2^32 - 1]. *)
Definition array_index (k : string) : option N :=
  match digits k 0%N with
  | Some n => if String.eqb (pretty n) k && (n <? 4294967295)%N then Some n else None
  | None => None
  end.

Definition is_index (k : string) : bool :=
  match array_index k with
  | Some _ => true
  | None => false
  end.

Definition index_of (k : string) : N := default 0%N (array_index k).

Fixpoint insert_by_index (entry : string * Obj) (sorted : list (string * Obj))
    : list (string * Obj) :=
  match sorted with
  | [] => [entry]
  | x :: rest =>
      if (index_of entry.1 <? index_of x.1)%N then entry :: x :: rest
      else x :: insert_by_index entry rest
  end.

(** [Object.entries(obj)]: the array indices among the keys come first,
    in ascending order, then the other keys in insertion order. *)
Definition Object_entries (obj : list (string * Obj)) : list (string * Obj) :=
  (foldr insert_by_index [] (filter (fun entry => is_index entry.1 = true) obj)
   ++ filter (fun entry => is_index entry.1 = false) obj)%list.

(** The reducer of [getValuesForPaths]:
    [(acc, [, { value, disabled, key }]) => { acc[key] = disabled ? undefined : value; return acc }]
    for the keys that store items have: the assignment adds or updates
    the member [key] of [acc], as it does for every key but [__proto__],
    which would set the prototype of [acc] instead. *)
Definition reducer (acc : Obj) (entry : string * Obj) : Obj :=
  <[toString (prop entry.2 "key") :=
      if truthy (prop entry.2 "disabled") then VUndefined else prop entry.2 "value"]> acc.

Definition getValuesForPaths (data : gmap string Obj) (paths : list string) : Obj :=
  foldl reducer ∅ (Object_entries (pick data paths)).

(** The selector of [useValuesForPath]:
    [(s) => getValuesForPaths({ ...initialData, ...s.data }, paths)] *)
Definition useValuesForPath (storeData : gmap string Obj) (paths : list string)
    (initialData : gmap string Obj) : Obj :=
  getValuesForPaths (storeData ∪ initialData) paths.

(** Modelled from the spec: [disableInputAtPath(path, flag)] of the
    store, whose source is missing.  It toggles [disabled] on the entry
    at [path] and keeps everything else of the entry, its stored value
    included. *)
Definition disableInputAtPath (path : string) (flag : bool) (data : gmap string Obj)
    : gmap string Obj :=
  alter (fun item => <["disabled" := VBool flag]> item) path data.

(** The reducer of [useValues]:
    [if (data[path] && 'value' in data[path])
       return Object.assign(acc, { [path]: data[path].value })]
    and [return acc] otherwise. *)
Definition collect (data : gmap string Obj) (acc : Obj) (path : string) : Obj :=
  match data !! path with
  | Some item =>
      match item !! "value" with
      | Some value => <[path := value]> acc
      | None => acc
      end
  | None => acc
  end.

(** The selector of [useValues]. *)
Definition useValues (data : gmap string Obj) (paths : list string) : Obj :=
  foldl (collect data) ∅ paths.

(** [getInputAtPath] of hooks/useInput.ts; [None] is [null].  [data]
    is a plain object, so for a path that it does not have itself
    [data[path]] is the member it inherits from [Object.prototype], if
    there is one: a built-in function or the prototype object, which is
    truthy and has no enumerable member to copy; the result is [{}]. *)
Definition getInputAtPath (data : gmap string Obj) (path : string) : option Obj :=
  match data !! path with
  | Some item => Some (delete "__refCount" item)
  | None => if inherited path then Some ∅ else None
  end.

(** The result of a call that may throw. *)
Inductive Outcome : Type :=
  | Return (v : Val)
  | Raise (error : Val).

(** The statement that a disabled entry always reads as [undefined] in the
    snapshot, whatever else is picked. *)
Definition disabled_reads_undefined (data : gmap string Obj) (paths : list string) : Prop :=
  forall path item,
    path ∈ paths -> data !! path = Some item ->
    truthy (prop item "disabled") = true ->
    getValuesForPaths data paths !! toString (prop item "key") = Some VUndefined.

Lemma assign_keys_old key v entries :
  key ∈ entries.*1 -> (assign key v entries).*1 = entries.*1.
Proof.
  induction entries as [|[k' x'] entries IH]; simpl; intros Hin.
  - by apply elem_of_nil in Hin.
  - destruct (String.eqb_spec k' key) as [->|Hne]; simpl; [done|].
    apply elem_of_cons in Hin as [?|Hin]; [congruence|]. f_equal. by apply IH.
Qed.

Lemma assign_keys_new key v entries :
  key ∉ entries.*1 -> (assign key v entries).*1 = (entries.*1 ++ [key])%list.
Proof.
  induction entries as [|[k' x'] entries IH]; simpl; intros Hnin; [done|].
  apply not_elem_of_cons in Hnin as [Hne Hnin].
  destruct (String.eqb_spec k' key) as [->|_]; simpl; [done|]. f_equal. by apply IH.
Qed.

Lemma assign_NoDup key v entries :
  NoDup entries.*1 -> NoDup (assign key v entries).*1.
Proof.
  intros Hnodup. destruct (decide (key ∈ entries.*1)) as [Hin|Hnin].
  - by rewrite assign_keys_old.
  - rewrite assign_keys_new by done.
    apply NoDup_app. split_and!; [done| |apply NoDup_singleton].
    intros k Hk ->%list_elem_of_singleton. contradiction.
Qed.

Lemma elem_of_assign key v entries k x :
  NoDup entries.*1 ->
  (k, x) ∈ assign key v entries <->
  (k = key /\ x = v) \/ (k <> key /\ (k, x) ∈ entries).
Proof.
  induction entries as [|[k' x'] entries IH]; simpl; intros Hnodup.
  - rewrite list_elem_of_singleton. split.
    + intros [= -> ->]. by left.
    + intros [[-> ->]|[_ Hin]]; [done|]. by apply elem_of_nil in Hin.
  - apply NoDup_cons in Hnodup as [Hk' Hnodup].
    destruct (String.eqb_spec k' key) as [->|Hne].
    + rewrite !elem_of_cons. split.
      * intros [[= -> ->]|Hin]; [by left|]. right.
        assert (k <> key).
        { intros ->. apply Hk'. apply list_elem_of_fmap. by exists (key, x). }
        split; [done|by right].
      * intros [[-> ->]|[Hne [[= -> ->]|Hin]]]; [by left|done|by right].
    + rewrite !elem_of_cons, (IH Hnodup). split.
      * intros [[= -> ->]|[[-> ->]|[? ?]]]; [right|by left|right].
        -- split; [done|by left].
        -- split; [done|by right].
      * intros [[-> ->]|[? [[= -> ->]|?]]]; [right; by left|by left|right; right; done].
Qed.

Lemma pick_NoDup (data : gmap string Obj) keys : NoDup (pick data keys).*1.
Proof.
  unfold pick. induction keys as [|key keys IH] using rev_ind.
  - apply NoDup_nil_2.
  - rewrite foldl_app. simpl. destruct (data !! key); [|done].
    by apply assign_NoDup.
Qed.

Lemma elem_of_pick (data : gmap string Obj) keys k x :
  (k, x) ∈ pick data keys <-> k ∈ keys /\ data !! k = Some x.
Proof.
  induction keys as [|key keys IH] using rev_ind.
  - unfold pick. simpl. rewrite !elem_of_nil. naive_solver.
  - pose proof (pick_NoDup data keys) as Hnodup.
    unfold pick in *. rewrite foldl_app. simpl.
    rewrite elem_of_app, list_elem_of_singleton.
    destruct (data !! key) as [v|] eqn:Hkey.
    + rewrite (elem_of_assign _ _ _ _ _ Hnodup), IH.
      destruct (decide (k = key)) as [->|]; naive_solver.
    + rewrite IH. naive_solver.
Qed.

Lemma elem_of_insert_by_index entry sorted x :
  x ∈ insert_by_index entry sorted <-> x = entry \/ x ∈ sorted.
Proof.
  induction sorted as [|y sorted IH]; simpl.
  - rewrite list_elem_of_singleton, elem_of_nil. tauto.
  - destruct (index_of entry.1 <? index_of y.1)%N.
    + by rewrite elem_of_cons.
    + rewrite !elem_of_cons, IH. tauto.
Qed.

Lemma elem_of_Object_entries obj x : x ∈ Object_entries obj <-> x ∈ obj.
Proof.
  unfold Object_entries. rewrite elem_of_app.
  assert (forall l, x ∈ foldr insert_by_index [] l <-> x ∈ l) as ->.
  { induction l as [|y l IH]; simpl; [done|].
    by rewrite elem_of_insert_by_index, elem_of_cons, IH. }
  rewrite !list_elem_of_filter.
  destruct (is_index x.1); split.
  - by intros [[_ ?]|[[=] _]].
  - by left.
  - by intros [[[=] _]|[_ ?]].
  - by right.
Qed.

(** The snapshot reads, at a short key, what the last picked entry with
    that short key contributes. *)
Lemma foldl_reducer_lookup entries acc k c :
  (exists entry, entry ∈ entries /\ toString (prop entry.2 "key") = k) ->
  (forall entry, entry ∈ entries -> toString (prop entry.2 "key") = k ->
     (if truthy (prop entry.2 "disabled") then VUndefined else prop entry.2 "value") = c) ->
  foldl reducer acc entries !! k = Some c.
Proof.
  induction entries as [|entry entries IH] using rev_ind; intros (e & He & Hk) Hc.
  - by apply elem_of_nil in He.
  - rewrite foldl_app. simpl. unfold reducer at 1.
    destruct (decide (toString (prop entry.2 "key") = k)) as [Heq|Hne].
    + rewrite Heq, lookup_insert_eq. f_equal. apply Hc; [|done].
      apply elem_of_app. right. by apply list_elem_of_singleton.
    + rewrite lookup_insert_ne by done. apply IH.
      * exists e. split; [|done].
        apply elem_of_app in He as [?|He%list_elem_of_singleton]; [done|].
        subst e. contradiction.
      * intros e' He'. apply Hc, elem_of_app. by left.
Qed.

Lemma getValuesForPaths_unique_key (data : gmap string Obj) paths path item :
  path ∈ paths -> data !! path = Some item ->
  (forall path' item',
      path' ∈ paths -> data !! path' = Some item' ->
      toString (prop item' "key") = toString (prop item "key") -> path' = path) ->
  getValuesForPaths data paths !! toString (prop item "key")
  = Some (if truthy (prop item "disabled") then VUndefined else prop item "value").
Proof.
    intros Hin Hitem Hunique. apply foldl_reducer_lookup.
  - exists (path, item). split; [|done]. by apply elem_of_Object_entries, elem_of_pick.
  - intros [path' item'] [Hin' Hitem']%elem_of_Object_entries%elem_of_pick Hkey.
    simpl in *.
    assert (path' = path) as -> by eauto. by simplify_eq.
Qed.

Lemma foldl_reducer_other entries acc k :
  (forall entry, entry ∈ entries -> toString (prop entry.2 "key") <> k) ->
  foldl reducer acc entries !! k = acc !! k.
Proof.
  induction entries as [|entry entries IH] using rev_ind; intros Hother; [done|].
  rewrite foldl_app. simpl. unfold reducer at 1.
  rewrite lookup_insert_ne.
  - apply IH. intros e He. apply Hother, elem_of_app. by left.
  - apply Hother, elem_of_app. right. by apply list_elem_of_singleton.
Qed.

(** The snapshot reads, at the short key of a picked entry that no later
    picked entry shares, what that entry contributes. *)
Lemma foldl_reducer_last earlier entry later acc :
  (forall entry', entry' ∈ later ->
     toString (prop entry'.2 "key") <> toString (prop entry.2 "key")) ->
  foldl reducer acc (earlier ++ entry :: later) !! toString (prop entry.2 "key")
  = Some (if truthy (prop entry.2 "disabled") then VUndefined else prop entry.2 "value").
Proof.
  intros Hlater. rewrite foldl_app. simpl.
  rewrite foldl_reducer_other by done. unfold reducer. by rewrite lookup_insert_eq.
Qed.

(** Updating the stored entry at [path] updates the picked entry in place. *)
Definition at_path (path : string) (f : Obj -> Obj) (entry : string * Obj) : string * Obj :=
  (entry.1, if String.eqb entry.1 path then f entry.2 else entry.2).

Lemma assign_at_path path f key v entries :
  assign key (at_path path f (key, v)).2 (at_path path f <$> entries)
  = at_path path f <$> assign key v entries.
Proof.
  induction entries as [|[k x] entries IH]; [done|].
  cbn [fmap list_fmap assign at_path fst snd] in *.
  destruct (String.eqb_spec k key) as [->|Hne].
  - done.
  - cbn [fmap list_fmap at_path fst snd]. f_equal. apply IH.
Qed.

Lemma pick_alter (data : gmap string Obj) path f keys :
  pick (alter f path data) keys = at_path path f <$> pick data keys.
Proof.
  unfold pick. induction keys as [|key keys IH] using rev_ind; [done|].
  rewrite !foldl_app. simpl. rewrite IH, lookup_alter.
  case_decide as Heq.
  - subst key. destruct (data !! path) as [v|]; simpl; [|done].
    rewrite <- assign_at_path. unfold at_path at 2. simpl.
    by rewrite String.eqb_refl.
  - destruct (data !! key) as [v|]; [|done].
    rewrite <- assign_at_path. unfold at_path at 2. simpl.
    apply String.eqb_neq in Heq. rewrite String.eqb_sym in Heq. by rewrite Heq.
Qed.

Lemma insert_by_index_at_path path f entry sorted :
  insert_by_index (at_path path f entry) (at_path path f <$> sorted)
  = at_path path f <$> insert_by_index entry sorted.
Proof.
  induction sorted as [|x sorted IH]; [done|].
  cbn [fmap list_fmap insert_by_index at_path fst] in *.
  destruct (index_of entry.1 <? index_of x.1)%N; [done|].
  cbn [fmap list_fmap]. f_equal. apply IH.
Qed.

Lemma filter_at_path path f (b : bool) (obj : list (string * Obj)) :
  filter (fun entry => is_index entry.1 = b) (at_path path f <$> obj)
  = at_path path f <$> filter (fun entry => is_index entry.1 = b) obj.
Proof.
  induction obj as [|x obj IH]; [done|].
  rewrite fmap_cons, !filter_cons, IH. cbn [at_path fst].
  by destruct (decide (is_index x.1 = b)).
Qed.

Lemma Object_entries_at_path path f (obj : list (string * Obj)) :
  Object_entries (at_path path f <$> obj) = at_path path f <$> Object_entries obj.
Proof.
  unfold Object_entries. rewrite !filter_at_path, fmap_app. f_equal.
  induction (filter (fun entry => is_index entry.1 = true) obj) as [|x l IH]; [done|].
  rewrite fmap_cons. cbn [foldr]. by rewrite IH, insert_by_index_at_path.
Qed.

(** C5, as the code has it. In the snapshot a disabled entry's short
    key reads [undefined], provided no entry that comes after it among
    the picked entries has the same short key; the entry keeps its
    stored value, and once [disabled] is cleared the snapshot reads that
    value again. *)
Theorem disabled_value_hidden (data : gmap string Obj) paths earlier path item later :
  Object_entries (pick data paths) = (earlier ++ (path, item) :: later)%list ->
  truthy (prop item "disabled") = true ->
  (forall entry, entry ∈ later ->
     toString (prop entry.2 "key") <> toString (prop item "key")) ->
  getValuesForPaths data paths !! toString (prop item "key") = Some VUndefined
  /\ (exists item', disableInputAtPath path false data !! path = Some item'
                    /\ prop item' "value" = prop item "value")
  /\ getValuesForPaths (disableInputAtPath path false data) paths
       !! toString (prop item "key")
     = Some (prop item "value").
Proof.
  intros Hpick Hdisabled Hlater.
  assert (data !! path = Some item) as Hitem.
    { apply (elem_of_pick data paths), elem_of_Object_entries. rewrite Hpick.
    apply elem_of_app. right. apply elem_of_cons. by left. }
  split_and!.
  - unfold getValuesForPaths. rewrite Hpick.
    rewrite (foldl_reducer_last earlier (path, item) later) by done.
    simpl. by rewrite Hdisabled.
  - exists (<["disabled" := VBool false]> item). split.
    + unfold disableInputAtPath. by rewrite lookup_alter_eq, Hitem.
    + unfold prop. by rewrite lookup_insert_ne.
  - unfold getValuesForPaths, disableInputAtPath.
        rewrite pick_alter, Object_entries_at_path, Hpick, fmap_app, fmap_cons.
    set (f := fun item : Obj => <["disabled" := VBool false]> item).
    assert (forall entry, prop (at_path path f entry).2 "key" = prop entry.2 "key") as Hkey.
    { intros [k x]. unfold at_path. simpl.
      destruct (String.eqb k path); [|done]. unfold f, prop.
      by rewrite lookup_insert_ne. }
    assert (at_path path f (path, item) = (path, f item)) as Hentry.
    { unfold at_path. simpl. by rewrite String.eqb_refl. }
    change (prop item "key") with (prop (path, item).2 "key").
    rewrite <- (Hkey (path, item)).
    rewrite foldl_reducer_last.
    + rewrite Hentry. simpl. unfold f, prop.
      rewrite lookup_insert_eq. simpl. by rewrite lookup_insert_ne.
    + intros entry' (entry & -> & Hin)%list_elem_of_fmap.
      rewrite !Hkey. by apply Hlater.
Qed.

Lemma collect_other (data : gmap string Obj) acc path p :
  p <> path -> collect data acc path !! p = acc !! p.
Proof.
  intros Hne. unfold collect. destruct (data !! path) as [item|]; [|done].
  destruct (item !! "value"); [|done]. by rewrite lookup_insert_ne.
Qed.

Lemma collect_same (data : gmap string Obj) acc path :
  acc !! path = None \/ acc !! path = data !! path ≫= (fun item => item !! "value") ->
  collect data acc path !! path = data !! path ≫= (fun item => item !! "value").
Proof.
  intros Hacc. unfold collect. destruct (data !! path) as [item|]; simpl in *.
  - destruct (item !! "value"); [by rewrite lookup_insert_eq|]. by destruct Hacc.
  - by destruct Hacc.
Qed.

Lemma useValues_not_requested (data : gmap string Obj) paths p :
  p ∉ paths -> useValues data paths !! p = None.
Proof.
  unfold useValues. induction paths as [|path paths IH] using rev_ind; intros Hnin.
  - apply lookup_empty.
  - rewrite foldl_app. simpl. rewrite not_elem_of_app, list_elem_of_singleton in Hnin.
    destruct Hnin as [Hnin Hne]. rewrite collect_other by done. by apply IH.
Qed.

Lemma useValues_requested (data : gmap string Obj) paths p :
  p ∈ paths ->
  useValues data paths !! p = data !! p ≫= (fun item => item !! "value").
Proof.
  unfold useValues. induction paths as [|path paths IH] using rev_ind; intros Hin.
  - by apply elem_of_nil in Hin.
  - rewrite foldl_app. simpl. destruct (decide (p = path)) as [->|Hne].
    + apply collect_same. destruct (decide (path ∈ paths)) as [Hold|Hnew].
      * right. by apply IH.
      * left. by apply useValues_not_requested.
    + rewrite collect_other by done. apply IH.
      apply elem_of_app in Hin as [?|Hin%list_elem_of_singleton]; [done|contradiction].
Qed.

(** C10. The values read by [useValues] are those of the requested
    paths that the store data has with a [value] member, each under its
    path; a path the data lacks, or whose entry has no [value], is left
    out.  For a path the data lacks [getInputAtPath] returns [null],
    unless the path names a member that every plain object inherits,
    where it returns an empty object, which has no value either. *)
Theorem useValues_omits_unknown_paths (data : gmap string Obj) paths p :
  useValues data paths !! p
    = (if decide (p ∈ paths) then data !! p ≫= (fun item => item !! "value") else None)
  /\ (p ∈ dom (useValues data paths) <->
       p ∈ paths /\ exists item, data !! p = Some item /\ is_Some (item !! "value"))
  /\ match data !! p with
     | Some item => getInputAtPath data p = Some (delete "__refCount" item)
     | None =>
         useValues data paths !! p = None
         /\ getInputAtPath data p = (if inherited p then Some ∅ else None)
         /\ (forall input, getInputAtPath data p = Some input -> input !! "value" = None)
     end.
Proof.
  assert (useValues data paths !! p
          = (if decide (p ∈ paths) then data !! p ≫= (fun item => item !! "value")
             else None)) as Hlookup.
  { case_decide; [by apply useValues_requested|by apply useValues_not_requested]. }
  split_and!.
  - done.
  - rewrite elem_of_dom, Hlookup. case_decide as Hin.
    + destruct (data !! p) as [item|]; simpl.
      * split; [intros Hsome; eauto|intros [_ (item' & [= <-] & Hsome)]; done].
      * split; [intros [? [=]]|intros [_ (item' & [=] & _)]].
    + split; [intros [? [=]]|intros [? _]; done].
  - destruct (data !! p) as [item|] eqn:Hitem.
    + unfold getInputAtPath. by rewrite Hitem.
    + unfold getInputAtPath. rewrite Hitem, Hlookup.
      split_and!; [by case_decide|done|].
      intros input. destruct (inherited p); [by intros [= <-]|done].
Qed.

(** *** Snapshots of concrete data *)

(** Two folders with an [x] each; [a.x] is disabled. *)
Definition data_two_x : gmap string Obj :=
  {[ "a.x" := {[ "key" := VStr "x"; "value" := VNum 1; "disabled" := VBool true ]};
     "b.x" := {[ "key" := VStr "x"; "value" := VNum 2; "disabled" := VBool false ]} ]}.

Example getValuesForPaths_two_x :
  getValuesForPaths data_two_x ["a.x"; "b.x"] = {[ "x" := VNum 2 ]}.
Proof. by vm_compute. Qed.

(** The disabled [a.x] does not read as [undefined] when [b.x], picked
    after it, has the same short key. *)
Lemma disabled_reads_undefined_counterexample :
  ~ disabled_reads_undefined data_two_x ["a.x"; "b.x"].
Proof.
  intros Hall.
  specialize (Hall "a.x"
                {[ "key" := VStr "x"; "value" := VNum 1; "disabled" := VBool true ]}).
  rewrite getValuesForPaths_two_x in Hall.
  assert (({[ "x" := VNum 2 ]} : Obj) !! "x" = Some VUndefined) as Hx.
  { apply Hall; [|reflexivity|reflexivity]. apply elem_of_cons. by left. }
  vm_compute in Hx. discriminate Hx.
Qed.

Example array_index_canonical :
  array_index "12" = Some 12%N /\ array_index "007" = None
  /\ array_index "4294967294" = Some 4294967294%N /\ array_index "4294967295" = None
  /\ array_index "f.1" = None /\ array_index "" = None.
Proof. by vm_compute. Qed.

(** A path that is an array index is listed first, whenever picked. *)
Example getValuesForPaths_index_first :
  getValuesForPaths
    {[ "f.1" := {[ "key" := VStr "1"; "value" := VNum 10 ]};
       "1" := {[ "key" := VStr "1"; "value" := VNum 20 ]} ]}
    ["f.1"; "1"]
  = {[ "1" := VNum 10 ]}.
Proof. by vm_compute. Qed.

(** [{ speed: 3 (disabled), size: 4 }] *)
Definition data_speed : gmap string Obj :=
  {[ "speed" := {[ "key" := VStr "speed"; "value" := VNum 3; "disabled" := VBool true ]};
     "size" := {[ "key" := VStr "size"; "value" := VNum 4; "disabled" := VBool false ]} ]}.

Lemma disabled_value_hidden_witness :
  getValuesForPaths data_speed ["speed"; "size"] !! "speed" = Some VUndefined
  /\ getValuesForPaths (disableInputAtPath "speed" false data_speed) ["speed"; "size"]
       !! "speed" = Some (VNum 3).
Proof.
  pose proof (disabled_value_hidden data_speed ["speed"; "size"] [] "speed"
                {[ "key" := VStr "speed"; "value" := VNum 3; "disabled" := VBool true ]}
                [("size",
                  {[ "key" := VStr "size"; "value" := VNum 4; "disabled" := VBool false ]})]
                eq_refl eq_refl) as Hhidden.
  destruct Hhidden as (Hundefined & _ & Hvalue).
  - intros entry ->%list_elem_of_singleton. discriminate.
  - split; [exact Hundefined | exact Hvalue].
Defined.

Example useValues_skips_folder_and_unknown :
  useValues
    {[ "x" := {[ "key" := VStr "x"; "value" := VNum 1 ]};
       "run" := {[ "key" := VStr "run"; "type" := VStr "BUTTON" ]} ]}
    ["x"; "run"; "ghost"]
  = {[ "x" := VNum 1 ]}.
Proof. by vm_compute. Qed.

End Snapshot.

(** ** headless/useControls.utils.ts *)

Module Headless.

(** [typeof value === 'object' && !Array.isArray(value) && value !== null] *)
Definition isHookSettings (value : Val) : bool :=
  match value with
  | VObj _ => true
  | _ => false
  end.

(** [{ ...hookSettings, headless: true }] *)
Definition createHeadlessSettings (hookSettings : Val) : Val :=
  VObj (<["headless" := VBool true]> (spread hookSettings)).

(** The [params] object of [reconstructArgsWithHeadless]; a member that
    is left out is [undefined]. *)
Record Params : Type := mkParams {
  folderName : Val;
  schemaOrFolderName : Val;
  settingsOrDepsOrSchema : Val;
  depsOrSettingsOrFolderSettings : Val;
  depsOrSettings : Val;
  depsOrUndefined : Val;
  hookSettings : Val
}.

Definition reconstructArgsWithHeadless (params : Params) : list Val :=
  let headlessSettings := createHeadlessSettings (hookSettings params) in
  if truthy (folderName params) then
    let folderSettingsArg := depsOrSettingsOrFolderSettings params in
    if isHookSettings (depsOrSettings params) then
      [schemaOrFolderName params; settingsOrDepsOrSchema params; folderSettingsArg;
       headlessSettings; depsOrUndefined params]
    else
      [schemaOrFolderName params; settingsOrDepsOrSchema params; folderSettingsArg;
       headlessSettings; depsOrSettings params]
  else
    if isHookSettings (settingsOrDepsOrSchema params) then
      [schemaOrFolderName params; headlessSettings; depsOrSettingsOrFolderSettings params]
    else
      [schemaOrFolderName params; headlessSettings; settingsOrDepsOrSchema params].

(** The position of the hook settings in the argument list of the base
    hook: fourth in the folder form, second in the schema-only form. *)
Definition hookSettingsSlot (params : Params) : nat :=
  if truthy (folderName params) then 3 else 1.

(** The calls the comments of [reconstructArgsWithHeadless] describe:
    [useControls(schema, hookSettings?, deps?)] and
    [useControls(folderName, schema, folderSettings?, hookSettings?, deps?)],
    where an argument that is not given is [None]. *)
Inductive Call : Type :=
  | SchemaOnly (schema : Val) (settings : option Obj) (deps : option (list Val))
  | FolderNamed (name : string) (schema : Val) (folderSettings : option Obj)
      (settings : option Obj) (deps : option (list Val)).

Definition optional {A} (inject : A -> Val) (x : option A) : Val :=
  match x with
  | Some a => inject a
  | None => VUndefined
  end.

(** The arguments of a call when every optional argument keeps its own
    position, [undefined] standing for one that is not given. *)
Definition positional (call : Call) : Params :=
  match call with
  | SchemaOnly schema settings deps =>
      {| folderName := VUndefined;
         schemaOrFolderName := schema;
         settingsOrDepsOrSchema := optional VObj settings;
         depsOrSettingsOrFolderSettings := optional VArr deps;
         depsOrSettings := VUndefined;
         depsOrUndefined := VUndefined;
         hookSettings := optional VObj settings |}
  | FolderNamed name schema folderSettings settings deps =>
      {| folderName := VStr name;
         schemaOrFolderName := VStr name;
         settingsOrDepsOrSchema := schema;
         depsOrSettingsOrFolderSettings := optional VObj folderSettings;
         depsOrSettings := optional VObj settings;
         depsOrUndefined := optional VArr deps;
         hookSettings := optional VObj settings |}
  end.

(** The arguments of a call when the dependency list moves up into the
    position of hook settings that are not given, as in
    [useControls(schema, deps)]. *)
Definition compact (call : Call) : Params :=
  match call with
  | SchemaOnly schema None deps =>
      {| folderName := VUndefined;
         schemaOrFolderName := schema;
         settingsOrDepsOrSchema := optional VArr deps;
         depsOrSettingsOrFolderSettings := VUndefined;
         depsOrSettings := VUndefined;
         depsOrUndefined := VUndefined;
         hookSettings := VUndefined |}
  | FolderNamed name schema folderSettings None deps =>
      {| folderName := VStr name;
         schemaOrFolderName := VStr name;
         settingsOrDepsOrSchema := schema;
         depsOrSettingsOrFolderSettings := optional VObj folderSettings;
         depsOrSettings := optional VArr deps;
         depsOrUndefined := VUndefined;
         hookSettings := VUndefined |}
  | _ => positional call
  end.

(** What the base hook is to receive for a call: the same call with
    [headless: true] in its hook settings. *)
Definition expected (call : Call) : list Val :=
  match call with
  | SchemaOnly schema settings deps =>
      [schema; createHeadlessSettings (optional VObj settings); optional VArr deps]
  | FolderNamed name schema folderSettings settings deps =>
      [VStr name; schema; optional VObj folderSettings;
       createHeadlessSettings (optional VObj settings); optional VArr deps]
  end.

(** The hook settings slot always holds an object with [headless: true]
    that keeps the other hook settings, also over [headless: false]. *)
Lemma headless_always_injected params :
  exists settings,
    reconstructArgsWithHeadless params !! hookSettingsSlot params = Some (VObj settings)
    /\ settings !! "headless" = Some (VBool true)
    /\ forall k, k <> "headless" -> settings !! k = spread (hookSettings params) !! k.
Proof.
  exists (<["headless" := VBool true]> (spread (hookSettings params))).
  split_and!.
  - unfold reconstructArgsWithHeadless, hookSettingsSlot.
    destruct (truthy (folderName params)).
    + by destruct (isHookSettings (depsOrSettings params)).
    + by destruct (isHookSettings (settingsOrDepsOrSchema params)).
  - apply lookup_insert_eq.
  - intros k Hk. by rewrite lookup_insert_ne.
Qed.

(** With the dependency list moved up, every call is passed on as
    expected, for a folder name that is not empty. *)
Lemma compact_call_passed_through call :
  (forall name schema folderSettings settings deps,
      call = FolderNamed name schema folderSettings settings deps -> name <> "") ->
  reconstructArgsWithHeadless (compact call) = expected call.
Proof.
  intros Hname. destruct call as [schema [settings|] [deps|]
                                 |name schema folderSettings [settings|] [deps|]];
    try reflexivity.
  all: specialize (Hname _ _ _ _ _ eq_refl).
  all: unfold reconstructArgsWithHeadless; simpl.
  all: apply String.eqb_neq in Hname; rewrite Hname; simpl.
  all: by destruct folderSettings.
Qed.

(** With every argument in its own position, a call is passed on as
    expected as long as it gives hook settings or no dependency list. *)
Lemma positional_call_passed_through call :
  (forall name schema folderSettings settings deps,
      call = FolderNamed name schema folderSettings settings deps -> name <> "") ->
  match call with
  | SchemaOnly _ None (Some _) | FolderNamed _ _ _ None (Some _) => True
  | _ => reconstructArgsWithHeadless (positional call) = expected call
  end.
Proof.
  intros Hname. destruct call as [schema [settings|] [deps|]
                                 |name schema folderSettings [settings|] [deps|]];
    try done.
  all: specialize (Hname _ _ _ _ _ eq_refl).
  all: unfold reconstructArgsWithHeadless; simpl.
  all: apply String.eqb_neq in Hname; rewrite Hname; simpl.
  all: by destruct folderSettings.
Qed.

(** C9. [useControls(schema, undefined, deps)]: the hook settings are
    left out and the dependency list is in its own, third position.  The
    argument list rebuilt for the base hook carries [headless: true] but
    not the dependency list, which was to be passed through unchanged. *)
Theorem dependency_list_dropped :
  let schema := VObj {[ "x" := VNum 1 ]} in
  let deps := [VNum 1; VNum 2; VNum 3] in
  let params :=
    {| folderName := VUndefined;
       schemaOrFolderName := schema;
       settingsOrDepsOrSchema := VUndefined;
       depsOrSettingsOrFolderSettings := VArr deps;
       depsOrSettings := VUndefined;
       depsOrUndefined := VUndefined;
       hookSettings := VUndefined |} in
  params = positional (SchemaOnly schema None (Some deps))
  /\ reconstructArgsWithHeadless params
     = [schema; VObj {[ "headless" := VBool true ]}; VUndefined]
  /\ expected (SchemaOnly schema None (Some deps))
     = [schema; VObj {[ "headless" := VBool true ]}; VArr deps]
  /\ VArr deps ∉ reconstructArgsWithHeadless params.
Proof.
  intros schema deps params.
  assert (reconstructArgsWithHeadless params
          = [schema; VObj {[ "headless" := VBool true ]}; VUndefined]) as Hargs
    by by vm_compute.
  split_and!; [done|done|by vm_compute|].
  rewrite Hargs. intros Hin.
  rewrite !elem_of_cons in Hin.
  destruct Hin as [Hin|[Hin|[Hin|Hin]]]; try discriminate Hin.
  by apply elem_of_nil in Hin.
Qed.

End Headless.

(** ** The store's ownership bookkeeping *)

Module Ownership.

(** Modelled from the spec: the store and its ownership coordinator,
    whose source is missing.  An entry (section 3) has a type, a
    committed value and [ownerRefCount], the number of registrations
    that claim its path. *)
Record Entry : Type := mkEntry {
  entry_type : string;
  value : Val;
  ownerRefCount : nat
}.

(** Modelled from the spec: a store holds one entry per path and the
    folder entries, and reports type conflicts as diagnostics. *)
Record Store : Type := mkStore {
  data : gmap string Entry;
  folders : gmap string Val;
  conflicts : list string
}.

(** Modelled from the spec: what one registration resolves its schema
    to (sections 4.1 and 4.2): the resolved paths, each with the type and
    value of its normalized entry, and the settings of its folders. *)
Record Registration : Type := mkRegistration {
  resolved : list (string * (string * Val));
  reg_folders : list (string * Val)
}.

Definition paths (reg : Registration) : list string := (resolved reg).*1.

(** Modelled from the spec: section 4.5, "for every resolved path: if
    absent in the store, insert with refCount=1; if present, increment
    refCount and, if the new registration's metadata differs
    incompatibly (different type at the same path), report a conflict
    diagnostic rather than silently overwriting"; the committed value is
    never reset. *)
Definition acquire (store : Store) (r : string * (string * Val)) : Store :=
  match data store !! r.1 with
  | None =>
      {| data := <[r.1 := {| entry_type := r.2.1; value := r.2.2; ownerRefCount := 1 |}]>
                   (data store);
         folders := folders store;
         conflicts := conflicts store |}
  | Some e =>
      {| data := <[r.1 := {| entry_type := entry_type e; value := value e;
                             ownerRefCount := S (ownerRefCount e) |}]> (data store);
         folders := folders store;
         conflicts := if String.eqb r.2.1 (entry_type e) then conflicts store
                      else (conflicts store ++ [r.1])%list |}
  end.

(** Modelled from the spec: section 4.2, folder settings are recorded
    once per folder path, the first settings win. *)
Definition record_folder (store : Store) (f : string * Val) : Store :=
  match folders store !! f.1 with
  | Some _ => store
  | None =>
      {| data := data store;
         folders := <[f.1 := f.2]> (folders store);
         conflicts := conflicts store |}
  end.

(** Modelled from the spec: section 4.5, one logical registration
    acquires every path it resolved and records its folders. *)
Definition register (reg : Registration) (store : Store) : Store :=
  foldl record_folder (foldl acquire store (resolved reg)) (reg_folders reg).

(** Modelled from the spec: section 3, a folder's children "are
    derived by prefix match". *)
Definition child (folder p : string) : bool := String.prefix (folder ++ ".") p.

Definition has_child (folder : string) (data : gmap string Entry) : Prop :=
  set_Exists (fun p => child folder p = true) (dom data).

(** Modelled from the spec: section 4.5, once [p] is removed, "if the
    owning folder now has zero remaining child paths, remove the folder
    entry too". *)
Definition prune (p : string) (store : Store) : Store :=
  {| data := data store;
     folders := filter (fun f => ~ (child f.1 p = true /\ ~ has_child f.1 (data store)))
                       (folders store);
     conflicts := conflicts store |}.

(** Modelled from the spec: section 4.5, "decrement refCount for every
    path it previously owned; at refCount==0, remove the path". *)
Definition release (store : Store) (p : string) : Store :=
  match data store !! p with
  | None => store
  | Some e =>
      match ownerRefCount e with
      | S (S n) =>
          {| data := <[p := {| entry_type := entry_type e; value := value e;
                               ownerRefCount := S n |}]> (data store);
             folders := folders store;
             conflicts := conflicts store |}
      | _ =>
          prune p {| data := delete p (data store);
                     folders := folders store;
                     conflicts := conflicts store |}
      end
  end.

(** Modelled from the spec: section 4.5, the teardown of a registration
    releases every path it owned. *)
Definition teardown (reg : Registration) (store : Store) : Store :=
  foldl release store (paths reg).

(** Modelled from the spec: sections 4.5 and 9, a registration's
    lifetime is an acquire/release pair keyed by its owner; mounting an
    owner that is already registered is a no-op. *)
Record Coordinator : Type := mkCoordinator {
  store : Store;
  owners : gmap nat Registration
}.

Inductive Event : Type :=
  | Register (owner : nat) (reg : Registration)
  | Teardown (owner : nat).

Definition step (c : Coordinator) (ev : Event) : Coordinator :=
  match ev with
  | Register owner reg =>
      match owners c !! owner with
      | Some _ => c
      | None => {| store := register reg (store c); owners := <[owner := reg]> (owners c) |}
      end
  | Teardown owner =>
      match owners c !! owner with
      | Some reg => {| store := teardown reg (store c); owners := delete owner (owners c) |}
      | None => c
      end
  end.

Definition run (events : list Event) (c : Coordinator) : Coordinator :=
  foldl step c events.

Definition empty : Coordinator :=
  {| store := {| data := ∅; folders := ∅; conflicts := [] |}; owners := ∅ |}.

(** The reference count of a path; a path without entry has none. *)
Definition refCount (store : Store) (p : string) : nat :=
  match data store !! p with
  | Some e => ownerRefCount e
  | None => 0
  end.

(** A registration touches the paths it resolved. *)
Definition touches (p : string) (reg : Registration) : bool :=
  bool_decide (p ∈ paths reg).

(** The paths of a registration are distinct: they are the keys of one
    object. *)
Definition well_formed (reg : Registration) : bool :=
  bool_decide (NoDup (paths reg)).

(** Independent registrations and their teardowns: every registration
    has an owner of its own, and a teardown is that of a registration
    that is still active. *)
Fixpoint valid (owners : gmap nat Registration) (events : list Event) : bool :=
  match events with
  | [] => true
  | Register owner reg :: events' =>
      bool_decide (owners !! owner = None) && well_formed reg
      && valid (<[owner := reg]> owners) events'
  | Teardown owner :: events' =>
      bool_decide (is_Some (owners !! owner)) && valid (delete owner owners) events'
  end.

Fixpoint registrations_touching (p : string) (events : list Event) : nat :=
  match events with
  | [] => 0
  | Register _ reg :: events' =>
      (if touches p reg then 1 else 0) + registrations_touching p events'
  | Teardown _ :: events' => registrations_touching p events'
  end.

Fixpoint teardowns_touching (p : string) (owners : gmap nat Registration)
    (events : list Event) : nat :=
  match events with
  | [] => 0
  | Register owner reg :: events' =>
      teardowns_touching p (<[owner := reg]> owners) events'
  | Teardown owner :: events' =>
      match owners !! owner with
      | Some reg => if touches p reg then 1 else 0
      | None => 0
      end + teardowns_touching p (delete owner owners) events'
  end.

(** *** Reference counts under registration and teardown *)

(** Every entry in the store is claimed at least once. *)
Definition Claimed (store : Store) : Prop :=
  forall p e, data store !! p = Some e -> 1 <= ownerRefCount e.



Definition one_if (b : bool) : nat := if b then 1 else 0.

Lemma refCount_acquire store r p :
  refCount (acquire store r) p = refCount store p + one_if (bool_decide (p = r.1)).
Proof.
  unfold refCount, acquire. destruct r as [q [ty v]]; simpl.
  destruct (data store !! q) as [e|] eqn:Hq; simpl.
  - rewrite lookup_insert. case_decide as Heq.
    + subst q. rewrite Hq, bool_decide_eq_true_2 by done. simpl. lia.
    + rewrite bool_decide_eq_false_2 by congruence. simpl. lia.
  - rewrite lookup_insert. case_decide as Heq.
    + subst q. rewrite Hq, bool_decide_eq_true_2 by done. done.
    + rewrite bool_decide_eq_false_2 by congruence. simpl. lia.
Qed.

Lemma Claimed_acquire store r : Claimed store -> Claimed (acquire store r).
Proof.
  intros Hclaimed p e. unfold acquire.
  destruct (data store !! r.1) as [e'|] eqn:Hr; simpl;
    rewrite lookup_insert; case_decide; try (by apply Hclaimed);
    intros [= <-]; simpl; lia.
Qed.

Lemma refCount_foldl_acquire l store p :
  NoDup l.*1 ->
  refCount (foldl acquire store l) p
  = refCount store p + one_if (bool_decide (p ∈ l.*1)).
Proof.
  revert store. induction l as [|r l IH]; intros store Hnodup.
  - rewrite fmap_nil, bool_decide_eq_false_2 by apply not_elem_of_nil.
    cbn [foldl one_if]. lia.
  - rewrite fmap_cons in *. apply NoDup_cons in Hnodup as [Hr Hnodup].
    cbn [foldl]. rewrite IH, refCount_acquire by done.
    destruct (decide (p = r.1)) as [->|Hne].
    + rewrite (bool_decide_eq_true_2 (r.1 = r.1)) by done.
      rewrite (bool_decide_eq_false_2 (r.1 ∈ l.*1)) by done.
      rewrite (bool_decide_eq_true_2 (r.1 ∈ r.1 :: l.*1)) by (apply elem_of_cons; by left).
      simpl. lia.
    + rewrite (bool_decide_eq_false_2 (p = r.1)) by done.
      destruct (decide (p ∈ l.*1)) as [Hin|Hnin].
      * rewrite (bool_decide_eq_true_2 (p ∈ l.*1)) by done.
        rewrite (bool_decide_eq_true_2 (p ∈ r.1 :: l.*1)) by (apply elem_of_cons; by right).
        simpl. lia.
      * rewrite (bool_decide_eq_false_2 (p ∈ l.*1)) by done.
        rewrite (bool_decide_eq_false_2 (p ∈ r.1 :: l.*1)) by (rewrite elem_of_cons; tauto).
        simpl. lia.
Qed.

Lemma Claimed_foldl_acquire l store : Claimed store -> Claimed (foldl acquire store l).
Proof.
  revert store. induction l as [|r l IH]; intros store Hclaimed; simpl; [done|].
  by apply IH, Claimed_acquire.
Qed.

Lemma data_record_folder store f : data (record_folder store f) = data store.
Proof. unfold record_folder. by destruct (folders store !! f.1). Qed.

Lemma data_foldl_record_folder l store : data (foldl record_folder store l) = data store.
Proof.
  revert store. induction l as [|f l IH]; intros store; simpl; [done|].
  by rewrite IH, data_record_folder.
Qed.

Lemma refCount_register reg store p :
  NoDup (paths reg) ->
  refCount (register reg store) p = refCount store p + one_if (touches p reg).
Proof.
  intros Hnodup. unfold register, refCount at 1.
  rewrite data_foldl_record_folder.
  by apply refCount_foldl_acquire.
Qed.

Lemma Claimed_register reg store : Claimed store -> Claimed (register reg store).
Proof.
  intros Hclaimed p e. unfold register. rewrite data_foldl_record_folder.
  by apply Claimed_foldl_acquire.
Qed.

Lemma refCount_release store q p :
  refCount (release store q) p = refCount store p - one_if (bool_decide (p = q)).
Proof.
  unfold refCount, release.
  destruct (data store !! q) as [e|] eqn:Hq.
  - destruct (ownerRefCount e) as [|[|n]] eqn:Hcount; simpl.
    + rewrite lookup_delete. case_decide as Heq.
      * subst q. rewrite Hq, Hcount. by rewrite bool_decide_eq_true_2.
      * rewrite bool_decide_eq_false_2 by congruence. simpl. lia.
    + rewrite lookup_delete. case_decide as Heq.
      * subst q. rewrite Hq, Hcount. by rewrite bool_decide_eq_true_2.
      * rewrite bool_decide_eq_false_2 by congruence. simpl. lia.
    + rewrite lookup_insert. case_decide as Heq.
      * subst q. rewrite Hq, Hcount, bool_decide_eq_true_2 by done. simpl. lia.
      * rewrite bool_decide_eq_false_2 by congruence. simpl. lia.
  - destruct (decide (p = q)) as [->|Hne].
    + rewrite Hq. by rewrite bool_decide_eq_true_2.
    + rewrite bool_decide_eq_false_2 by done. simpl. lia.
Qed.

Lemma Claimed_release store q : Claimed store -> Claimed (release store q).
Proof.
  intros Hclaimed p e. unfold release.
  destruct (data store !! q) as [e'|] eqn:Hq; [|by apply Hclaimed].
  destruct (ownerRefCount e') as [|[|n]]; simpl.
  - rewrite lookup_delete. case_decide; [done|by apply Hclaimed].
  - rewrite lookup_delete. case_decide; [done|by apply Hclaimed].
  - rewrite lookup_insert. case_decide; [|by apply Hclaimed].
    intros [= <-]. simpl. lia.
Qed.

Lemma refCount_foldl_release l store p :
  NoDup l ->
  refCount (foldl release store l) p = refCount store p - one_if (bool_decide (p ∈ l)).
Proof.
  revert store. induction l as [|q l IH]; intros store Hnodup.
  - rewrite bool_decide_eq_false_2 by apply not_elem_of_nil. cbn [foldl one_if]. lia.
  - apply NoDup_cons in Hnodup as [Hq Hnodup].
    cbn [foldl]. rewrite IH, refCount_release by done.
    destruct (decide (p = q)) as [->|Hne].
    + rewrite (bool_decide_eq_true_2 (q = q)) by done.
      rewrite (bool_decide_eq_false_2 (q ∈ l)) by done.
      rewrite (bool_decide_eq_true_2 (q ∈ q :: l)) by (apply elem_of_cons; by left).
      simpl. lia.
    + rewrite (bool_decide_eq_false_2 (p = q)) by done.
      destruct (decide (p ∈ l)) as [Hin|Hnin].
      * rewrite (bool_decide_eq_true_2 (p ∈ l)) by done.
        rewrite (bool_decide_eq_true_2 (p ∈ q :: l)) by (apply elem_of_cons; by right).
        simpl. lia.
      * rewrite (bool_decide_eq_false_2 (p ∈ l)) by done.
        rewrite (bool_decide_eq_false_2 (p ∈ q :: l)) by (rewrite elem_of_cons; tauto).
        simpl. lia.
Qed.

Lemma Claimed_foldl_release l store : Claimed store -> Claimed (foldl release store l).
Proof.
  revert store. induction l as [|q l IH]; intros store Hclaimed; simpl; [done|].
  by apply IH, Claimed_release.
Qed.

Lemma folders_release store q : folders (release store q) ⊆ folders store.
Proof.
  unfold release. destruct (data store !! q) as [e|]; [|done].
  destruct (ownerRefCount e) as [|[|n]]; simpl; try done; apply map_filter_subseteq.
Qed.

Lemma folders_foldl_release l store : folders (foldl release store l) ⊆ folders store.
Proof.
  revert store. induction l as [|q l IH]; intros store; simpl; [done|].
  etrans; [apply IH|apply folders_release].
Qed.

(** A release either keeps every path, or removes its path and prunes
    the folders that owned it and have no child path left. *)
Lemma release_cases store q :
  dom (data (release store q)) = dom (data store)
  \/ (data (release store q) = delete q (data store)
      /\ folders (release store q)
         = filter (fun f => ~ (child f.1 q = true
                               /\ ~ has_child f.1 (delete q (data store))))
                  (folders store)).
Proof.
  unfold release. destruct (data store !! q) as [e|] eqn:Hq; [|by left].
  destruct (ownerRefCount e) as [|[|n]]; simpl.
  - by right.
  - by right.
  - left. rewrite dom_insert_L. apply elem_of_dom_2 in Hq. set_solver.
Qed.

(** After a teardown, a folder that is still in the store and owned one
    of the removed paths has a child path left. *)
Lemma foldl_release_keeps_housed l store f q :
  is_Some (folders (foldl release store l) !! f) ->
  q ∈ dom (data store) -> q ∉ dom (data (foldl release store l)) ->
  child f q = true ->
  has_child f (data (foldl release store l)).
Proof.
  revert store q. induction l as [|q0 l IH]; intros store q Hf Hq Hgone Hchild.
  { done. }
  cbn [foldl] in *.
  destruct (decide (q ∈ dom (data (release store q0)))) as [Hkept|Hremoved].
  { by eapply IH. }
  destruct (release_cases store q0) as [Hsame|[Hdata Hfolders]].
  { rewrite Hsame in Hremoved. contradiction. }
  assert (q = q0) as ->.
  { rewrite Hdata, dom_delete_L in Hremoved.
    destruct (decide (q = q0)); [done|]. set_solver. }
  assert (is_Some (folders (release store q0) !! f)) as [settings Hf1].
  { destruct Hf as [settings Hf]. exists settings.
    eapply lookup_weaken; [done|]. apply folders_foldl_release. }
  rewrite Hfolders in Hf1. apply map_lookup_filter_Some in Hf1 as [_ Hkeep].
  simpl in Hkeep.
  destruct (decide (has_child f (delete q0 (data store)))) as [(q1 & Hq1 & Hchild1)|Hnone].
  - rewrite <- Hdata in Hq1.
    destruct (decide (q1 ∈ dom (data (foldl release (release store q0) l)))) as [?|Hgone1].
    + by exists q1.
    + by eapply (IH _ q1).
  - exfalso. by apply Hkeep.
Qed.

(** The number of active registrations that touch a path. *)
Definition active (p : string) (owners : gmap nat Registration) : nat :=
  size (filter (fun o => touches p o.2 = true) owners).

Lemma active_insert p owners owner reg :
  owners !! owner = None ->
  active p (<[owner := reg]> owners) = active p owners + one_if (touches p reg).
Proof.
  intros Hfresh. unfold active. destruct (touches p reg) eqn:Htouch.
  - rewrite map_filter_insert_True by done.
    rewrite map_size_insert_None; [simpl; lia|].
    apply map_lookup_filter_None. by left.
  - rewrite map_filter_insert_False by (simpl; congruence).
    rewrite delete_id by done. simpl. lia.
Qed.

Lemma active_delete p owners owner reg :
  owners !! owner = Some reg ->
  active p owners = active p (delete owner owners) + one_if (touches p reg).
Proof.
  intros Howner. unfold active. rewrite map_filter_delete.
  destruct (touches p reg) eqn:Htouch.
  - rewrite map_size_delete_Some.
    + assert (0 < size (filter (fun o => touches p o.2 = true) owners)); [|simpl; lia].
      destruct (size _) eqn:Hsize; [|lia].
      apply map_size_empty_inv in Hsize.
      assert (filter (fun o => touches p o.2 = true) owners !! owner = Some reg) as Hin
        by by apply map_lookup_filter_Some.
      rewrite Hsize, lookup_empty in Hin. done.
    + exists reg. by apply map_lookup_filter_Some.
  - rewrite delete_id; [simpl; lia|].
    apply map_lookup_filter_None. right. intros reg' Hreg'. simpl. congruence.
Qed.

(** What the coordinator maintains. *)
Record Consistent (c : Coordinator) : Prop := mkConsistent {
    consistent_claimed : Claimed (store c);
  consistent_distinct : forall owner reg, owners c !! owner = Some reg -> NoDup (paths reg);
  consistent_count : forall p, refCount (store c) p = active p (owners c)
}.

Lemma Consistent_empty : Consistent empty.
Proof.
  split.
    - intros p e Hp. cbn [empty store data] in Hp. by rewrite lookup_empty in Hp.
  - intros owner reg Howner. cbn [empty owners] in Howner.
    by rewrite lookup_empty in Howner.
  - intros p. unfold refCount, active. cbn [empty store data owners].
    by rewrite lookup_empty, map_filter_empty, map_size_empty.
Qed.

Lemma Consistent_register c owner reg :
  Consistent c -> owners c !! owner = None -> well_formed reg = true ->
  Consistent (step c (Register owner reg)).
Proof.
    intros [Hclaimed Hdistinct Hcount] Hfresh Hnodup%bool_decide_eq_true.
  simpl. rewrite Hfresh.
  split; simpl.
  - by apply Claimed_register.
  - intros owner' reg'. rewrite lookup_insert. case_decide; [by intros [= <-]|].
    apply Hdistinct.
  - intros p. by rewrite refCount_register, active_insert, Hcount.
Qed.

Lemma Consistent_teardown c owner :
  Consistent c -> Consistent (step c (Teardown owner)).
Proof.
    intros [Hclaimed Hdistinct Hcount]. simpl.
  destruct (owners c !! owner) as [reg|] eqn:Howner; [|done].
  split; simpl.
  - by apply Claimed_foldl_release.
  - intros owner' reg'. rewrite lookup_delete. case_decide; [done|]. apply Hdistinct.
  - intros p. unfold teardown. rewrite refCount_foldl_release by eauto.
    rewrite Hcount, (active_delete p _ _ _ Howner). unfold touches. lia.
Qed.

Lemma run_consistent events c p :
  valid (owners c) events = true -> Consistent c ->
  Consistent (run events c)
  /\ active p (owners (run events c)) + teardowns_touching p (owners c) events
     = active p (owners c) + registrations_touching p events.
Proof.
  revert c. induction events as [|ev events IH]; intros c Hvalid Hc.
  - split; [done|]. simpl. lia.
  - destruct ev as [owner reg|owner]; cbn [valid] in Hvalid.
    + apply andb_prop in Hvalid as [[Hfresh%bool_decide_eq_true Hwf]%andb_prop Hvalid].
      pose proof (Consistent_register c owner reg Hc Hfresh Hwf) as Hc'.
      assert (owners (step c (Register owner reg)) = <[owner := reg]> (owners c)) as Howners.
      { simpl. by rewrite Hfresh. }
      rewrite <- Howners in Hvalid.
      destruct (IH _ Hvalid Hc') as [Hfinal Hactive].
      change (run (Register owner reg :: events) c)
        with (run events (step c (Register owner reg))).
      split; [done|].
      rewrite Howners, active_insert in Hactive by done.
      cbn [teardowns_touching registrations_touching].
      unfold one_if in *. destruct (touches p reg); lia.
    + apply andb_prop in Hvalid as [[reg Howner]%bool_decide_eq_true Hvalid].
      pose proof (Consistent_teardown c owner Hc) as Hc'.
      assert (owners (step c (Teardown owner)) = delete owner (owners c)) as Howners.
      { simpl. by rewrite Howner. }
      rewrite <- Howners in Hvalid.
      destruct (IH _ Hvalid Hc') as [Hfinal Hactive].
      change (run (Teardown owner :: events) c)
        with (run events (step c (Teardown owner))).
      split; [done|].
      rewrite Howners in Hactive.
      cbn [teardowns_touching registrations_touching]. rewrite Howner.
      rewrite (active_delete p (owners c) owner reg Howner).
      unfold one_if in *. destruct (touches p reg); lia.
Qed.

Lemma run_snoc events ev c : run (events ++ [ev]) c = step (run events c) ev.
Proof. unfold run. by rewrite foldl_app. Qed.

(** C2. After independent registrations and teardowns of active
    registrations, the reference count of a path is the number of
    registrations touching it minus the number of teardowns touching
    it, and the path has an entry exactly when that difference is
    positive.  One more registration or teardown moves the count of a
    path it touches by exactly one; the entry is there exactly while
    the count is positive; and when a teardown removes a path and leaves
    no child path of a folder that owned it, the folder entry is removed
    too. *)
Theorem reference_count_tracks_owners events p :
  valid ∅ events = true ->
  let c := run events empty in
  let registered := Z.of_nat (registrations_touching p events) in
  let torn_down := Z.of_nat (teardowns_touching p ∅ events) in
  Z.of_nat (refCount (store c) p) = (registered - torn_down)%Z
  /\ (p ∈ dom (data (store c)) <-> (registered - torn_down > 0)%Z)
    /\ (forall owner reg,
        owners c !! owner = None -> well_formed reg = true ->
        let c' := run (events ++ [Register owner reg]) empty in
        refCount (store c') p = refCount (store c) p + (if touches p reg then 1 else 0))
  /\ (forall owner reg,
        owners c !! owner = Some reg ->
        let c' := run (events ++ [Teardown owner]) empty in
                refCount (store c') p = refCount (store c) p - (if touches p reg then 1 else 0)
        /\ (p ∈ dom (data (store c')) <-> 0 < refCount (store c') p)
        /\ (forall f,
              p ∈ dom (data (store c)) -> p ∉ dom (data (store c')) ->
              child f p = true ->
              (forall q, q ∈ dom (data (store c')) -> child f q = false) ->
              folders (store c') !! f = None)).
Proof.
  intros Hvalid c registered torn_down.
  destruct (run_consistent events empty p Hvalid Consistent_empty) as [Hc Hactive].
  fold c in Hc, Hactive.
  assert (active p (owners empty) = 0) as Hzero.
  { unfold active. cbn [empty owners]. by rewrite map_filter_empty, map_size_empty. }
  rewrite Hzero in Hactive.
  assert (forall c0, Claimed (store c0) ->
            p ∈ dom (data (store c0)) <-> 0 < refCount (store c0) p) as Hpresent.
  { intros c0 Hclaimed. unfold refCount. rewrite elem_of_dom.
    destruct (data (store c0) !! p) as [e|] eqn:He.
    - split; [intros _; by apply (Hclaimed p e)|by eauto].
    - split; [by intros [? ?]|lia]. }
  pose proof (consistent_count c Hc p) as Hcount.
  split_and!.
  - subst registered torn_down. cbn [empty owners] in Hactive. lia.
  - rewrite (Hpresent c (consistent_claimed c Hc)).
    subst registered torn_down. cbn [empty owners] in Hactive. lia.
    - intros owner reg Hfresh Hnodup%bool_decide_eq_true c'.
    subst c'. rewrite run_snoc. fold c.
    simpl. rewrite Hfresh. simpl.
    by rewrite refCount_register.
  - intros owner reg Howner c'. subst c'. rewrite run_snoc. fold c.
    pose proof (Consistent_teardown c owner Hc) as Hc'.
        split_and!.
    + simpl. rewrite Howner. simpl. unfold teardown.
      rewrite refCount_foldl_release by exact (consistent_distinct c Hc owner reg Howner).
      done.
    + apply Hpresent, Hc'.
    + simpl. rewrite Howner. simpl. unfold teardown.
      intros f Hp Hgone Hchild Hchildless.
      destruct (folders (foldl release (store c) (paths reg)) !! f) as [settings|] eqn:Hf;
        [|done].
      destruct (foldl_release_keeps_housed (paths reg) (store c) f p
                  (mk_is_Some _ _ Hf) Hp Hgone Hchild) as (q & Hq & Hq').
      rewrite (Hchildless q Hq) in Hq'. discriminate.
Qed.

(** *** The scenarios of the specification *)

(** [{ f: folder({ a: 1, b: 2 }) }] *)
Definition owner1 : Registration :=
  {| resolved := [("f.a", ("NUMBER", VNum 1)); ("f.b", ("NUMBER", VNum 2))];
     reg_folders := [("f", VObj {[ "collapsed" := VBool false ]})] |}.

(** [{ f: folder({ a: 1 }) }] *)
Definition owner2 : Registration :=
  {| resolved := [("f.a", ("NUMBER", VNum 1))];
     reg_folders := [("f", VObj {[ "collapsed" := VBool true ]})] |}.

Example shared_path_survives :
  let c := run [Register 1 owner1; Register 2 owner2; Teardown 1] empty in
  refCount (store c) "f.a" = 1
  /\ dom (data (store c)) = {[ "f.a" ]}
  /\ dom (folders (store c)) = {[ "f" ]}.
Proof. by vm_compute. Qed.

Example folder_pruned :
  store (run [Register 1 owner1; Teardown 1] empty)
  = {| data := ∅; folders := ∅; conflicts := [] |}.
Proof. by vm_compute. Qed.

Lemma reference_count_tracks_owners_witness :
  Z.of_nat (refCount (store (run [Register 1 owner1; Register 2 owner2; Teardown 1] empty))
              "f.a") = (2 - 1)%Z
  /\ ("f.b" ∈ dom (data (store (run [Register 1 owner1; Register 2 owner2; Teardown 1]
                                   empty)))
      <-> (1 - 1 > 0)%Z).
Proof.
  split.
  - exact (proj1 (reference_count_tracks_owners
                    [Register 1 owner1; Register 2 owner2; Teardown 1] "f.a" eq_refl)).
  - exact (proj1 (proj2 (reference_count_tracks_owners
                           [Register 1 owner1; Register 2 owner2; Teardown 1] "f.b"
                           eq_refl))).
Defined.

End Ownership.


(** ** utils/data.ts: what a walk returns *)

Module ResolverFacts.
Import Resolver.

(** What a walk below [rootPath] adds to the three objects: each item it
    stores is built by [dataItem], each short key it maps is not empty
    and is the last part of its path, and each path it stores is the
    path of a short key. *)
Record Adds (rootPath : string) (st st' : Resolved) : Prop := mkAdds {
  adds_keeps : mappedPaths st ⊆ mappedPaths st';
  adds_items : forall p item,
    data st' !! p = Some item ->
    data st !! p = Some item \/ exists n, item = dataItem n;
  adds_keys : forall key first,
    mappedPaths st' !! key = Some first ->
    mappedPaths st !! key = Some first
    \/ (key <> ""
        /\ exists prefix, (prefix = rootPath \/ within rootPath prefix)
                          /\ path first = join prefix key);
  adds_paths : forall p,
    p ∈ dom (data st') ->
    p ∈ dom (data st)
    \/ exists key first,
         mappedPaths st' !! key = Some first /\ mappedPaths st !! key = None
         /\ path first = p
}.

Lemma Adds_refl rootPath st : Adds rootPath st st.
Proof. split; auto. Qed.

Lemma Adds_trans rootPath st1 st2 st3 :
  Adds rootPath st1 st2 -> Adds rootPath st2 st3 -> Adds rootPath st1 st3.
Proof.
  intros [K12 I12 M12 P12] [K23 I23 M23 P23]. split.
  - by etrans.
  - intros p item H3. destruct (I23 _ _ H3) as [H2|?]; [|by right]. by apply I12.
  - intros key first H3. destruct (M23 _ _ H3) as [H2|?]; [|by right]. by apply M12.
  - intros p H3. destruct (P23 _ H3) as [H2|H].
    + destruct (P12 _ H2) as [?|(key & first & Hkey & Hnew & Hpath)]; [by left|right].
      exists key, first. split; [|done]. by eapply lookup_weaken.
    + destruct H as (key & first & Hkey & Hnew & Hpath). right.
      exists key, first. split; [done|]. split; [|done].
      by eapply lookup_weaken_None.
Qed.

Section Facts.

Variable normalizeInput : Val -> string -> string -> Data -> option NormalizedInput.

Implicit Types (st : Resolved) (schema entries : Schema) (rawInput : RawInput).

Lemma forEach_adds rootPath entries :
  Forall (fun entry => forall rootPath key st,
            Adds rootPath st (visit normalizeInput rootPath key entry.2 st).1) entries ->
  forall st, Adds rootPath st (forEach (visit normalizeInput rootPath) entries st).1.
Proof.
  induction 1 as [|[key rawInput] entries Hentry _ IH]; intros st.
  - apply Adds_refl.
  - destruct (completion st) as [|error] eqn:Hst.
    + rewrite forEach_cons by done. simpl.
      eapply Adds_trans; [apply Hentry | apply IH].
    + rewrite (forEach_thrown _ _ _ error) by done. apply Adds_refl.
Qed.

Lemma visit_adds rawInput :
  forall rootPath key st, Adds rootPath st (visit normalizeInput rootPath key rawInput st).1.
Proof.
  induction rawInput as [raw|schema settings IH] using RawInput_nested_ind;
    intros rootPath key st.
  - destruct (decide (key = "")) as [->|Hkey].
    { rewrite visit_empty_key. apply Adds_refl. }
    destruct (nullish raw) eqn:Hraw.
    { rewrite visit_nullish by done. split; simpl; auto. }
    rewrite visit_input by done.
    destruct (has (mappedPaths st) key) eqn:Hmapped; [apply Adds_refl|].
    apply has_false in Hmapped as [Hmapped _].
    destruct (normalizeInput raw key (join rootPath key) (data st)) as [n|];
      [|apply Adds_refl].
    split; simpl.
    + by apply insert_subseteq.
    + intros p item. rewrite lookup_insert. case_decide; [|by left].
      intros [= <-]. right. by exists n.
    + intros key' first. rewrite lookup_insert. case_decide as Hk; [|by left].
      intros [= <-]. subst key'. right. split; [done|].
      exists rootPath. split; [by left|done].
    + intros p. rewrite dom_insert_L, elem_of_union, elem_of_singleton.
      intros [->|?]; [right|by left].
      exists key, (mappedPath (join rootPath key) n).
      by rewrite lookup_insert_eq.
  - destruct (decide (key = "")) as [->|Hkey].
    { rewrite visit_empty_key. apply Adds_refl. }
    rewrite visit_folder by done. cbv zeta.
    pose proof (forEach_adds (join rootPath key) schema IH
                  {| data := ∅; mappedPaths := mappedPaths st; folders := folders st;
                     completion := Normal |})
      as [K I M P].
    fold (getDataFromSchema normalizeInput schema (join rootPath key)
            (mappedPaths st) (folders st)) in *.
    set (sub := getDataFromSchema normalizeInput schema (join rootPath key)
                  (mappedPaths st) (folders st)) in *.
    simpl in *.
    assert (forall key' first,
              mappedPaths sub.1 !! key' = Some first ->
              mappedPaths st !! key' = Some first
              \/ (key' <> ""
                  /\ exists prefix, (prefix = rootPath \/ within rootPath prefix)
                                    /\ path first = join prefix key')) as Hkeys.
    { intros key' first H'.
      destruct (M _ _ H') as [?|(Hk & prefix & Hprefix & Hpath)]; [by left|right].
      split; [done|]. exists prefix. split; [right|done].
      destruct Hprefix as [->|Hwithin].
      - exists key. by split.
      - by apply (within_join _ key). }
    destruct (completion sub.1) as [|error]; split; simpl; try done.
    + intros p item. rewrite lookup_union_Some_raw.
      intros [Hsub|[_ Hst]]; [|by left].
      destruct (I _ _ Hsub) as [Hempty|?]; [|by right].
      by rewrite lookup_empty in Hempty.
    + intros p. rewrite dom_union_L, elem_of_union. intros [Hp|?]; [|by left].
      destruct (P _ Hp) as [Hempty|?]; [|by right].
      by rewrite dom_empty_L in Hempty.
    + intros p item. by left.
    + intros p. by left.
Qed.

Lemma getDataFromSchema_adds schema rootPath M0 F0 :
  Adds rootPath
    {| data := ∅; mappedPaths := M0; folders := F0; completion := Normal |}
    (getDataFromSchema normalizeInput schema rootPath M0 F0).1.
Proof.
  apply forEach_adds, Forall_forall. intros entry _. apply visit_adds.
Qed.

(** Every path of the returned data and every folder path the walk
    records lies below [rootPath]: it is [rootPath] joined with a
    non-empty rest, and is never the empty path. *)
Theorem getDataFromSchema_below_rootPath schema rootPath M0 F0 p :
  let result := (getDataFromSchema normalizeInput schema rootPath M0 F0).1 in
  (p ∈ dom (data result) -> within rootPath p /\ p <> "")
  /\ (is_Some (folders result !! p) -> F0 !! p = None -> within rootPath p /\ p <> "").
Proof.
  pose proof (getDataFromSchema_extends normalizeInput schema rootPath M0 F0)
    as [_ _ _ _ _ W G _ _]. simpl in *.
  assert (Hne : within rootPath p -> p <> "").
  { intros (rest & Hrest & ->). by apply join_not_empty. }
  split.
  - intros Hp. destruct (W _ Hp) as [Hempty|Hw]; [|by auto].
    by rewrite dom_empty_L in Hempty.
  - intros [settings Hp] Hnew. destruct (G _ _ Hp) as [Hold|Hw]; [|by auto].
    congruence.
Qed.

(** The walk only adds to the two objects it is handed: every short key
    of [mappedPaths] keeps its entry and every folder path of [folders]
    keeps its settings. *)
Theorem getDataFromSchema_keeps_entries schema rootPath M0 F0 :
  let result := (getDataFromSchema normalizeInput schema rootPath M0 F0).1 in
  M0 ⊆ mappedPaths result /\ F0 ⊆ folders result.
Proof.
  pose proof (getDataFromSchema_extends normalizeInput schema rootPath M0 F0)
    as [M F _ _ _ _ _ _ _]. by split.
Qed.

(** Every item of the returned data carries [fromPanel: true], whatever
    the normalizer put in its options and input. *)
Theorem getDataFromSchema_fromPanel schema rootPath M0 F0 p item :
  data (getDataFromSchema normalizeInput schema rootPath M0 F0).1 !! p = Some item ->
  item !! "fromPanel" = Some (VBool true).
Proof.
  intros Hitem.
  destruct (adds_items _ _ _ (getDataFromSchema_adds schema rootPath M0 F0) _ _ Hitem)
    as [Hempty|[n ->]].
  - simpl in Hempty. by rewrite lookup_empty in Hempty.
  - unfold dataItem. by rewrite lookup_insert_eq.
Qed.

(** The returned data and the short keys mapped by the walk describe the
    same paths: a path in the data is the path of a short key that the
    walk added to [mappedPaths], and in a walk that returns the path of
    every short key that the walk added is in the data. *)
Theorem getDataFromSchema_paths_are_mapped schema rootPath M0 F0 p :
  let result := (getDataFromSchema normalizeInput schema rootPath M0 F0).1 in
  (p ∈ dom (data result) ->
   exists key first,
     mappedPaths result !! key = Some first /\ M0 !! key = None /\ path first = p)
  /\ (completion result = Normal ->
      (exists key first,
         mappedPaths result !! key = Some first /\ M0 !! key = None /\ path first = p) ->
      p ∈ dom (data result)).
Proof.
  simpl. split.
  - intros Hp.
    destruct (adds_paths _ _ _ (getDataFromSchema_adds schema rootPath M0 F0) _ Hp)
      as [Hempty|?]; [|done].
    simpl in Hempty. by rewrite dom_empty_L in Hempty.
  - intros Hreturned (key & first & Hkey & Hnew & <-).
    destruct (ext_mapped_in_data _ _ _
                (getDataFromSchema_extends normalizeInput schema rootPath M0 F0)
                Hreturned _ _ Hkey) as [Hold|?]; [|done].
    simpl in Hold. congruence.
Qed.

(** A short key that the walk maps is never empty, and it is the last
    part of its path: the path is the short key joined to [rootPath] or
    to a folder path below it. *)
Theorem getDataFromSchema_key_ends_path schema rootPath M0 F0 key first :
  mappedPaths (getDataFromSchema normalizeInput schema rootPath M0 F0).1 !! key
    = Some first ->
  M0 !! key = None ->
  key <> ""
  /\ exists prefix, (prefix = rootPath \/ within rootPath prefix)
                    /\ path first = join prefix key.
Proof.
  intros Hkey Hnew.
  destruct (adds_keys _ _ _ (getDataFromSchema_adds schema rootPath M0 F0) _ _ Hkey)
    as [Hold|?]; [|done].
  simpl in Hold. congruence.
Qed.

(** After a walk that returns, every folder entry of the schema with a
    non-empty key has settings recorded at its path, unless that path
    names a member that [folders] inherits from [Object.prototype]: for
    such a path (a folder [toString] at the root) nothing is recorded
    by any walk, [folders] has what it was handed. *)
Theorem getDataFromSchema_folder_recorded schema rootPath M0 F0 key sub settings :
  completion (getDataFromSchema normalizeInput schema rootPath M0 F0).1 = Normal ->
  (key, Folder sub settings) ∈ schema -> key <> "" ->
  let result := (getDataFromSchema normalizeInput schema rootPath M0 F0).1 in
  (inherited (join rootPath key) = false ->
   is_Some (folders result !! join rootPath key))
  /\ (inherited (join rootPath key) = true ->
      folders result !! join rootPath key = F0 !! join rootPath key).
Proof.
  intros Hreturned Hin Hkey. cbv zeta. split.
  - intros Hown. revert Hreturned. unfold getDataFromSchema.
    generalize {| data := ∅; mappedPaths := M0; folders := F0; completion := Normal |}.
    induction schema as [|[key' rawInput'] entries IH]; intros st.
    { by apply elem_of_nil in Hin. }
    destruct (completion st) as [|error] eqn:Hst.
    2: { rewrite (forEach_thrown _ _ _ error) by done. simpl. by rewrite Hst. }
    rewrite forEach_cons by done. cbn [fst]. intros Hreturned.
    apply elem_of_cons in Hin as [[= <- <-]|Hin]; [|by apply IH].
    pose proof (forEach_visit_extends normalizeInput rootPath entries
                  (visit normalizeInput rootPath key (Folder sub settings) st).1)
      as [_ F _ C _ _ _ _ _].
    specialize (C Hreturned).
    assert (is_Some (folders (visit normalizeInput rootPath key (Folder sub settings) st).1
                       !! join rootPath key)) as [s Hs].
    { revert C. rewrite visit_folder by done. cbv zeta.
      destruct (completion (getDataFromSchema normalizeInput sub (join rootPath key)
                              (mappedPaths st) (folders st)).1) as [|error];
        cbn [fst folders completion]; [intros _|done].
      destruct (has _ (join rootPath key)) eqn:Hhas.
      - apply has_true in Hhas as [?|?]; [done|congruence].
      - by rewrite lookup_insert_eq. }
    exists s. by eapply lookup_weaken.
  - intros Hinherited.
    pose proof (getDataFromSchema_extends normalizeInput schema rootPath M0 F0)
      as [_ F _ _ _ _ _ _ Q]. simpl in F, Q.
    destruct (folders _ !! join rootPath key) as [s|] eqn:Hs.
    + destruct (Q _ _ Hs); congruence.
    + destruct (F0 !! join rootPath key) as [s0|] eqn:Hs0; [|done].
      by rewrite (lookup_weaken _ _ _ _ Hs0 F) in Hs.
Qed.

(** A walk that returns and reports nothing has registered every input
    entry of the schema: its key is not empty, its path is in the
    returned data and its short key is mapped to that path. *)
Theorem getDataFromSchema_clean_walk schema rootPath M0 F0 key raw :
  completion (getDataFromSchema normalizeInput schema rootPath M0 F0).1 = Normal ->
  (getDataFromSchema normalizeInput schema rootPath M0 F0).2 = [] ->
  (key, Input raw) ∈ schema ->
  let result := (getDataFromSchema normalizeInput schema rootPath M0 F0).1 in
  key <> ""
  /\ join rootPath key ∈ dom (data result)
  /\ exists first,
       mappedPaths result !! key = Some first /\ path first = join rootPath key.
Proof.
  intros Hreturned Hclean Hin. revert Hreturned Hclean. cbv zeta. unfold getDataFromSchema.
  generalize {| data := ∅; mappedPaths := M0; folders := F0; completion := Normal |}.
  induction schema as [|[key' rawInput'] entries IH]; intros st.
  { by apply elem_of_nil in Hin. }
  destruct (completion st) as [|error] eqn:Hst.
  2: { rewrite (forEach_thrown _ _ _ error) by done. simpl. by rewrite Hst. }
  rewrite forEach_cons by done. cbn [fst snd]. intros Hreturned [Hhead Htail]%app_eq_nil.
  apply elem_of_cons in Hin as [[= <- <-]|Hin]; [|by apply IH].
  destruct (decide (key = "")) as [->|Hkey].
  { by rewrite visit_empty_key in Hhead. }
  split; [done|].
  pose proof (forEach_visit_extends normalizeInput rootPath entries
                (visit normalizeInput rootPath key (Input raw) st).1)
    as [M _ D C _ _ _ _ _].
  specialize (C Hreturned).
  destruct (nullish raw) eqn:Hraw.
  { by rewrite visit_nullish in C. }
  revert Hhead M D. rewrite visit_input by done.
  destruct (has (mappedPaths st) key); [done|].
  destruct (normalizeInput raw key (join rootPath key) (data st)) as [n|]; [|done].
  simpl. intros _ M D. split.
  - apply D. rewrite dom_insert_L. set_solver.
  - exists (mappedPath (join rootPath key) n). split; [|done].
    eapply lookup_weaken; [|exact M]. by rewrite lookup_insert_eq.
Qed.

End Facts.

(** [{ a: folder({ x: 1 }), on: true }] *)
Definition schema_clean : Schema :=
  [("a", Folder [("x", Input (VNum 1))] (VObj {[ "collapsed" := VBool false ]}));
   ("on", Input (VBool true))].

Definition item_x : Obj :=
  {[ "fromPanel" := VBool true; "value" := VNum 1; "key" := VStr "x";
     "type" := VStr "NUMBER" ]}.

Definition mapped_x : MappedPath :=
  {| path := "panel.a.x"; onChange := VUndefined; transient := VUndefined;
     onEditStart := VUndefined; onEditEnd := VUndefined |}.

Lemma getDataFromSchema_below_rootPath_witness :
  within "panel" "panel.a.x" /\ "panel.a.x" <> "".
Proof.
  apply (proj1 (getDataFromSchema_below_rootPath normalize_sample schema_clean "panel"
                  no_paths no_folders "panel.a.x")).
  apply (elem_of_dom_2 _ _ item_x). vm_compute. reflexivity.
Defined.

Lemma getDataFromSchema_fromPanel_witness :
  item_x !! "fromPanel" = Some (VBool true).
Proof.
  apply (getDataFromSchema_fromPanel normalize_sample schema_clean "panel"
           no_paths no_folders "panel.a.x").
  vm_compute. reflexivity.
Defined.

Lemma getDataFromSchema_key_ends_path_witness :
  "x" <> ""
  /\ exists prefix, (prefix = "panel" \/ within "panel" prefix)
                    /\ path mapped_x = join prefix "x".
Proof.
  apply (getDataFromSchema_key_ends_path normalize_sample schema_clean "panel"
           no_paths no_folders "x" mapped_x).
  - vm_compute. reflexivity.
  - reflexivity.
Defined.

Lemma getDataFromSchema_paths_are_mapped_witness :
  "panel.a.x" ∈ dom (data (getDataFromSchema normalize_sample schema_clean "panel"
                             no_paths no_folders).1).
Proof.
  apply (proj2 (getDataFromSchema_paths_are_mapped normalize_sample schema_clean "panel"
                  no_paths no_folders "panel.a.x")); [reflexivity|].
  exists "x", mapped_x. split_and!; [by vm_compute|reflexivity|reflexivity].
Defined.

Lemma getDataFromSchema_folder_recorded_witness :
  is_Some (folders (getDataFromSchema normalize_sample schema_clean "panel"
                      no_paths no_folders).1 !! "panel.a").
Proof.
  apply (getDataFromSchema_folder_recorded normalize_sample schema_clean "panel"
           no_paths no_folders "a" [("x", Input (VNum 1))]
           (VObj {[ "collapsed" := VBool false ]})).
  - reflexivity.
  - apply list_elem_of_here.
  - discriminate.
  - reflexivity.
Defined.

Lemma getDataFromSchema_clean_walk_witness :
  "on" <> ""
  /\ "panel.on" ∈ dom (data (getDataFromSchema normalize_sample schema_clean "panel"
                               no_paths no_folders).1)
  /\ exists first,
       mappedPaths (getDataFromSchema normalize_sample schema_clean "panel"
                      no_paths no_folders).1 !! "on" = Some first
       /\ path first = "panel.on".
Proof.
  apply (getDataFromSchema_clean_walk normalize_sample schema_clean "panel"
           no_paths no_folders "on" (VBool true)).
  - reflexivity.
  - vm_compute. reflexivity.
  - apply list_elem_of_further, list_elem_of_here.
Defined.

End ResolverFacts.


(** ** utils/data.ts and the hooks: what a snapshot holds *)

Module SnapshotFacts.
Import Snapshot.

(** What a picked entry contributes at its short key. *)
Definition contribution (item : Obj) : Val :=
  if truthy (prop item "disabled") then VUndefined else prop item "value".

(** What reading a member that a plain object inherits from
    [Object.prototype] gives: a built-in function, or for [__proto__]
    the prototype object, which has no enumerable member. *)
Definition Object_prototype_member (k : string) : Val :=
  if String.eqb k "__proto__" then VObj ∅
  else if String.eqb k "constructor" then VFun "function Object() { [native code] }"
  else VFun ("function " ++ k ++ "() { [native code] }").

(** [o[k]] for a plain object [o]: its own member, or else the one it
    inherits, or else [undefined]. *)
Definition member (o : Obj) (k : string) : Val :=
  match o !! k with
  | Some v => v
  | None => if inherited k then Object_prototype_member k else VUndefined
  end.

(** [useValue(path)]: [useValues([path])[path]]. *)
Definition useValue (data : gmap string Obj) (path : string) : Val :=
  member (useValues data [path]) path.

(** The key of a stored item is a string that an assignment [acc[key] = v]
    turns into a member of [acc]: any string but [__proto__], which
    sets the prototype instead. *)
Definition plain_key (item : Obj) : Prop :=
  exists s, prop item "key" = VStr s /\ s <> "__proto__".

Lemma foldl_reducer_Some entries acc k v :
  foldl reducer acc entries !! k = Some v ->
  acc !! k = Some v
  \/ exists entry, entry ∈ entries /\ toString (prop entry.2 "key") = k
                   /\ v = contribution entry.2.
Proof.
  revert acc. induction entries as [|e entries IH]; intros acc; [by left|].
  cbn [foldl]. intros [Hacc|(entry & Hin & Hk & Hv)]%IH.
  - unfold reducer in Hacc. apply lookup_insert_Some in Hacc as [[Hk Hv]|[_ Hacc]].
    + right. exists e. split; [apply list_elem_of_here|]. by split.
    + by left.
  - right. exists entry. split; [by apply list_elem_of_further|]. by split.
Qed.

Lemma foldl_reducer_keeps entries acc k :
  is_Some (acc !! k) -> is_Some (foldl reducer acc entries !! k).
Proof.
  revert acc. induction entries as [|e entries IH]; intros acc Hacc; [done|].
  cbn [foldl]. apply IH. unfold reducer.
  destruct (decide (toString (prop e.2 "key") = k)) as [->|Hne].
  - by rewrite lookup_insert_eq.
  - by rewrite lookup_insert_ne.
Qed.

Lemma foldl_reducer_is_Some entries acc entry :
  entry ∈ entries -> is_Some (foldl reducer acc entries !! toString (prop entry.2 "key")).
Proof.
  revert acc. induction entries as [|e entries IH]; intros acc Hin.
  { by apply elem_of_nil in Hin. }
  cbn [foldl]. apply elem_of_cons in Hin as [->|Hin]; [|by apply IH].
  apply foldl_reducer_keeps. unfold reducer. by rewrite lookup_insert_eq.
Qed.

Lemma pick_agree (data1 data2 : gmap string Obj) keys :
  (forall k, k ∈ keys -> data1 !! k = data2 !! k) ->
  pick data1 keys = pick data2 keys.
Proof.
  unfold pick. generalize (@nil (string * Obj)).
  induction keys as [|key keys IH]; intros obj Hagree; [done|].
  cbn [foldl]. rewrite (Hagree key) by apply list_elem_of_here.
  apply IH. intros k Hk. by apply Hagree, list_elem_of_further.
Qed.

(** The snapshot only reads the data at the requested paths. *)
Lemma getValuesForPaths_agree (data1 data2 : gmap string Obj) paths :
  (forall p, p ∈ paths -> data1 !! p = data2 !! p) ->
  getValuesForPaths data1 paths = getValuesForPaths data2 paths.
Proof. intros Hagree. unfold getValuesForPaths. by rewrite (pick_agree data1 data2). Qed.

(** When the key of every requested item is a plain string, the
    snapshot holds exactly the short keys of the requested paths that
    are in the data: every member is what some such entry contributes,
    every such entry gives a member, and a requested path that is not
    in the data gives nothing. *)
Theorem getValuesForPaths_members (data : gmap string Obj) paths :
  (forall path item, path ∈ paths -> data !! path = Some item -> plain_key item) ->
  (forall k v,
      getValuesForPaths data paths !! k = Some v ->
      exists path item,
        path ∈ paths /\ data !! path = Some item
        /\ toString (prop item "key") = k /\ v = contribution item)
  /\ (forall path item,
        path ∈ paths -> data !! path = Some item ->
        is_Some (getValuesForPaths data paths !! toString (prop item "key"))).
Proof.
  intros _. split.
  - intros k v [Hempty|([path item] & Hin & Hk & Hv)]%foldl_reducer_Some.
    { by rewrite lookup_empty in Hempty. }
    apply elem_of_Object_entries, elem_of_pick in Hin as [Hin Hitem].
    by exists path, item.
  - intros path item Hin Hitem.
    apply (foldl_reducer_is_Some _ _ (path, item)).
    by apply elem_of_Object_entries, elem_of_pick.
Qed.

(** When the requested paths that are in the data have plain strings as
    keys, different from one another, the snapshot reads at each short
    key the stored value of its entry, or [undefined] when the entry is
    disabled. *)
Theorem getValuesForPaths_distinct_keys (data : gmap string Obj) paths :
  (forall path item, path ∈ paths -> data !! path = Some item -> plain_key item) ->
  (forall path1 item1 path2 item2,
      path1 ∈ paths -> data !! path1 = Some item1 ->
      path2 ∈ paths -> data !! path2 = Some item2 ->
      toString (prop item1 "key") = toString (prop item2 "key") -> path1 = path2) ->
  forall path item,
    path ∈ paths -> data !! path = Some item ->
    getValuesForPaths data paths !! toString (prop item "key")
    = Some (contribution item).
Proof.
  intros Hplain Hdistinct path item Hin Hitem.
  destruct (proj2 (getValuesForPaths_members data paths Hplain) path item Hin Hitem)
    as [v Hv].
  rewrite Hv. f_equal.
  destruct (proj1 (getValuesForPaths_members data paths Hplain) _ _ Hv)
    as (path' & item' & Hin' & Hitem' & Hk & ->).
  assert (path' = path) as -> by eauto. by simplify_eq.
Qed.

(** The store's entries take precedence over the initial data, which
    only stands in for requested paths that the store does not have yet:
    once the store has every requested path the initial data is not read
    any more, and while it has none of them the snapshot is that of the
    initial data. *)
Theorem useValuesForPath_store_first (storeData initialData : gmap string Obj) paths :
  ((forall p, p ∈ paths -> is_Some (storeData !! p)) ->
   useValuesForPath storeData paths initialData = getValuesForPaths storeData paths)
  /\ ((forall p, p ∈ paths -> storeData !! p = None) ->
      useValuesForPath storeData paths initialData = getValuesForPaths initialData paths).
Proof.
  split; intros Hstore; apply getValuesForPaths_agree; intros p Hp;
    rewrite lookup_union; specialize (Hstore p Hp).
  - destruct Hstore as [item ->]. by destruct (initialData !! p).
  - rewrite Hstore. by destruct (initialData !! p).
Qed.

(** Subscribing to two lists of paths at once gives the two results
    put together. *)
Theorem useValues_app (data : gmap string Obj) paths1 paths2 :
  useValues data (paths1 ++ paths2) = useValues data paths1 ∪ useValues data paths2.
Proof.
  apply map_eq. intros p. rewrite lookup_union.
  destruct (decide (p ∈ paths1)) as [H1|H1]; destruct (decide (p ∈ paths2)) as [H2|H2].
  - rewrite !useValues_requested by set_solver.
    by destruct (data !! p ≫= _).
  - rewrite (useValues_requested _ (paths1 ++ paths2)), (useValues_requested _ paths1),
      (useValues_not_requested _ paths2) by set_solver.
    by destruct (data !! p ≫= _).
  - rewrite (useValues_requested _ (paths1 ++ paths2)), (useValues_requested _ paths2),
      (useValues_not_requested _ paths1) by set_solver.
    by destruct (data !! p ≫= _).
  - by rewrite !useValues_not_requested by set_solver.
Qed.

(** [useValue(path)] reads what any wider [useValues] subscription that
    lists the path reads there.  For a path that is not the name of a
    member that every plain object inherits, this is the stored value
    of the entry at [path], and [undefined] when there is no entry or
    the entry has no value.  For the name of an inherited member
    without a stored value it is that inherited member ([constructor]
    gives the [Object] function), not [undefined]. *)
Theorem useValue_reads_stored_value (data : gmap string Obj) path paths :
  path ∈ paths ->
  useValue data path = member (useValues data paths) path
  /\ (inherited path = false ->
      useValue data path
      = default VUndefined (data !! path ≫= (fun item => item !! "value")))
  /\ (inherited path = true ->
      data !! path ≫= (fun item => item !! "value") = None ->
      useValue data path = Object_prototype_member path).
Proof.
  intros Hin. unfold useValue, member.
  rewrite !useValues_requested; [|done|apply list_elem_of_here].
  split_and!; [done|intros ->|intros -> ->]; [|done].
  by destruct (data !! path ≫= _).
Qed.

(** For a path that is not the name of a member that every plain object
    inherits, [useValue(path)] and the input that [useInput(path)]
    starts from read the same value: the [value] member of what
    [getInputAtPath] returns, and [undefined] where it returns [null]
    or an entry without a value. *)
Theorem useValue_agrees_with_getInputAtPath (data : gmap string Obj) path :
  inherited path = false ->
  useValue data path
  = match getInputAtPath data path with
    | Some input => prop input "value"
    | None => VUndefined
    end.
Proof.
  intros Hown. unfold useValue, member, prop, getInputAtPath.
  rewrite useValues_requested by apply list_elem_of_here. rewrite Hown.
  destruct (data !! path) as [item|]; [|done]. simpl.
  rewrite lookup_delete_ne by done. by destruct (item !! "value").
Qed.

(** [useValue('constructor')] on a store without such a path. *)
Example useValue_constructor :
  useValue ∅ "constructor" = VFun "function Object() { [native code] }"
  /\ getInputAtPath ∅ "constructor" = Some ∅.
Proof. by vm_compute. Qed.

Lemma data_speed_distinct path1 item1 path2 item2 :
  path1 ∈ ["speed"; "size"; "missing"] -> data_speed !! path1 = Some item1 ->
  path2 ∈ ["speed"; "size"; "missing"] -> data_speed !! path2 = Some item2 ->
  toString (prop item1 "key") = toString (prop item2 "key") -> path1 = path2.
Proof.
  intros H1 E1 H2 E2 HK.
  assert (item1 = default ∅ (data_speed !! path1)) as -> by (by rewrite E1).
  assert (item2 = default ∅ (data_speed !! path2)) as -> by (by rewrite E2).
  repeat (apply elem_of_cons in H1 as [H1|H1]; [subst|]); try (by apply elem_of_nil in H1);
    repeat (apply elem_of_cons in H2 as [H2|H2]; [subst|]); try (by apply elem_of_nil in H2);
    try reflexivity; try discriminate E1; try discriminate E2;
    vm_compute in HK; discriminate HK.
Qed.

Lemma data_speed_plain path item :
  path ∈ ["speed"; "size"; "missing"] -> data_speed !! path = Some item -> plain_key item.
Proof.
  intros Hin Hitem.
  assert (item = default ∅ (data_speed !! path)) as -> by (by rewrite Hitem).
  repeat (apply elem_of_cons in Hin as [Hin|Hin]; [subst|]);
    try (by apply elem_of_nil in Hin); try discriminate Hitem;
    eexists; (split; [by vm_compute|discriminate]).
Qed.

Lemma getValuesForPaths_members_witness :
  is_Some (getValuesForPaths data_speed ["speed"; "size"; "missing"] !! "size").
Proof.
  exact (proj2 (getValuesForPaths_members data_speed ["speed"; "size"; "missing"]
                  data_speed_plain) "size"
           {[ "key" := VStr "size"; "value" := VNum 4; "disabled" := VBool false ]}
           (list_elem_of_further _ _ _ (list_elem_of_here _ _)) eq_refl).
Defined.

Lemma getValuesForPaths_distinct_keys_witness :
  getValuesForPaths data_speed ["speed"; "size"; "missing"] !! "size" = Some (VNum 4).
Proof.
  exact (getValuesForPaths_distinct_keys data_speed ["speed"; "size"; "missing"]
           data_speed_plain data_speed_distinct "size"
           {[ "key" := VStr "size"; "value" := VNum 4; "disabled" := VBool false ]}
           (list_elem_of_further _ _ _ (list_elem_of_here _ _)) eq_refl).
Defined.

Lemma useValue_reads_stored_value_witness :
  useValue data_speed "speed" = member (useValues data_speed ["size"; "speed"]) "speed"
  /\ useValue data_speed "speed" = VNum 3.
Proof.
  pose proof (useValue_reads_stored_value data_speed "speed" ["size"; "speed"]
                (list_elem_of_further _ _ _ (list_elem_of_here _ _)))
    as (Hwider & Hstored & _).
  split; [exact Hwider | exact (Hstored eq_refl)].
Defined.

Lemma useValue_agrees_with_getInputAtPath_witness :
  useValue data_speed "speed"
  = match getInputAtPath data_speed "speed" with
    | Some input => prop input "value"
    | None => VUndefined
    end.
Proof. apply useValue_agrees_with_getInputAtPath. reflexivity. Defined.

Lemma useValuesForPath_store_first_witness :
  useValuesForPath data_speed ["speed"; "size"]
    {[ "speed" := {[ "key" := VStr "speed"; "value" := VNum 0 ]} ]}
  = getValuesForPaths data_speed ["speed"; "size"].
Proof.
  apply (proj1 (useValuesForPath_store_first data_speed
                  {[ "speed" := {[ "key" := VStr "speed"; "value" := VNum 0 ]} ]}
                  ["speed"; "size"])).
  intros p Hp.
  repeat (apply elem_of_cons in Hp as [Hp|Hp]; [subst|]);
    [by eexists..|by apply elem_of_nil in Hp].
Defined.

End SnapshotFacts.


(** ** headless/useControls.utils.ts: which calls are passed on *)

Module HeadlessFacts.
Import Headless.

(** A call that leaves out the hook settings and gives a dependency
    list. *)
Definition deps_without_settings (call : Call) : bool :=
  match call with
  | SchemaOnly _ None (Some _) | FolderNamed _ _ _ None (Some _) => true
  | _ => false
  end.

(** The folder name of a call is not empty. *)
Definition named (call : Call) : Prop :=
  match call with
  | SchemaOnly _ _ _ => True
  | FolderNamed name _ _ _ _ => name <> ""
  end.

(** With every argument in its own position, [undefined] standing for
    the ones left out, a call is passed on with [headless: true] added
    and nothing else changed exactly when it gives hook settings or no
    dependency list: a dependency list that follows left-out hook
    settings is always replaced by [undefined], the last argument, and
    the arguments before it are passed on as expected. *)
Theorem positional_call_passed_through_iff call :
  named call ->
  (reconstructArgsWithHeadless (positional call) = expected call
   <-> deps_without_settings call = false)
  /\ (deps_without_settings call = true ->
      reconstructArgsWithHeadless (positional call)
      = (removelast (expected call) ++ [VUndefined])%list
      /\ last (reconstructArgsWithHeadless (positional call)) = Some VUndefined
      /\ exists deps, last (expected call) = Some (VArr deps)).
Proof.
  intros Hname.
  destruct call as [schema [settings|] [deps|]
                   |name schema folderSettings [settings|] [deps|]];
    simpl in Hname; try apply String.eqb_neq in Hname;
    unfold reconstructArgsWithHeadless; simpl; rewrite ?Hname; simpl;
    try destruct folderSettings; simpl;
    (split; [split; try done; intros [=]|]); try done; intros _;
    (split; [done|]); (split; [done|]); by exists deps.
Qed.

Lemma positional_call_passed_through_iff_witness :
  reconstructArgsWithHeadless
    (positional (FolderNamed "scene" (VObj {[ "x" := VNum 1 ]}) None
                   (Some {[ "store" := VObj ∅ ]}) (Some [VNum 1])))
  = expected (FolderNamed "scene" (VObj {[ "x" := VNum 1 ]}) None
                (Some {[ "store" := VObj ∅ ]}) (Some [VNum 1])).
Proof.
  apply (proj1 (positional_call_passed_through_iff
                  (FolderNamed "scene" (VObj {[ "x" := VNum 1 ]}) None
                     (Some {[ "store" := VObj ∅ ]}) (Some [VNum 1]))
                  ltac:(discriminate))).
  reflexivity.
Defined.

Lemma compact_call_passed_through_witness :
  reconstructArgsWithHeadless
    (compact (FolderNamed "scene" (VObj {[ "x" := VNum 1 ]}) None None (Some [VNum 1])))
  = expected (FolderNamed "scene" (VObj {[ "x" := VNum 1 ]}) None None (Some [VNum 1])).
Proof.
  apply compact_call_passed_through.
  intros name schema folderSettings settings deps [= <- _ _ _ _]. discriminate.
Defined.

End HeadlessFacts.


(** ** components/Leva/Leva.tsx: the lifecycle of the global panel *)

Module Panel.

(** The fields of [PanelLifecycle]; [rootEl] and [reactRoot] tell whether
    the field holds an object or [null]. *)
Record PanelLifecycle : Type := mkPanelLifecycle {
  refCount : Z;
  rootEl : bool;
  reactRoot : bool;
  initialized : bool;
  explicitPanelInTree : bool
}.

(** [new PanelLifecycle()] *)
Definition panelLifecycle : PanelLifecycle :=
  {| refCount := 0; rootEl := false; reactRoot := false;
     initialized := false; explicitPanelInTree := false |}.

(** What the lifecycle does to the document and to React, in order. *)
Inductive Effect : Type :=
  | AppendChild     (* document.body.appendChild(this.rootEl) *)
  | CreateRoot      (* createRoot(this.rootEl) *)
  | Render          (* this.reactRoot.render(<Leva isRoot />) *)
  | UnmountRoot     (* this.reactRoot.unmount() *)
  | RemoveElement.  (* this.rootEl.remove() *)

(** [createPanel()], where [hasBody] tells whether [document.body] is
    there.  The element is the one found by [getElementById] or a new
    one, so [rootEl] is set in both cases. *)
Definition createPanel (hasBody : bool) (this : PanelLifecycle)
    : PanelLifecycle * list Effect :=
  if negb (rootEl this) then
    if hasBody then
      ({| refCount := refCount this; rootEl := true; reactRoot := true;
          initialized := initialized this;
          explicitPanelInTree := explicitPanelInTree this |},
       [AppendChild; CreateRoot; Render])
    else
      ({| refCount := refCount this; rootEl := true; reactRoot := reactRoot this;
          initialized := initialized this;
          explicitPanelInTree := explicitPanelInTree this |}, [])
  else (this, []).

(** [destroyPanel()] *)
Definition destroyPanel (this : PanelLifecycle) : PanelLifecycle * list Effect :=
  if rootEl this then
    ({| refCount := refCount this; rootEl := false; reactRoot := false;
        initialized := initialized this;
        explicitPanelInTree := explicitPanelInTree this |},
     ((if reactRoot this then [UnmountRoot] else []) ++ [RemoveElement])%list)
  else (this, []).

Definition set_initialized (flag : bool) (this : PanelLifecycle) : PanelLifecycle :=
  {| refCount := refCount this; rootEl := rootEl this; reactRoot := reactRoot this;
     initialized := flag; explicitPanelInTree := explicitPanelInTree this |}.

Definition set_refCount (n : Z) (this : PanelLifecycle) : PanelLifecycle :=
  {| refCount := n; rootEl := rootEl this; reactRoot := reactRoot this;
     initialized := initialized this;
     explicitPanelInTree := explicitPanelInTree this |}.

(** [mount()] *)
Definition mount (hasBody : bool) (this : PanelLifecycle) : PanelLifecycle * list Effect :=
  let this := set_refCount (refCount this + 1) this in
  if negb (initialized this) && negb (explicitPanelInTree this) then
    let created := createPanel hasBody this in
    (set_initialized true created.1, created.2)
  else (this, []).

(** [unmount()] *)
Definition unmount (this : PanelLifecycle) : PanelLifecycle * list Effect :=
  let this := set_refCount (refCount this - 1) this in
  if (refCount this =? 0)%Z && initialized this then
    let destroyed := destroyPanel this in
    (set_initialized false destroyed.1, destroyed.2)
  else (this, []).

(** [setExplicitPanel(isExplicit)] *)
Definition setExplicitPanel (isExplicit : bool) (this : PanelLifecycle)
    : PanelLifecycle * list Effect :=
  let this :=
    {| refCount := refCount this; rootEl := rootEl this; reactRoot := reactRoot this;
       initialized := initialized this; explicitPanelInTree := isExplicit |} in
  if isExplicit && initialized this then
    let destroyed := destroyPanel this in
    (set_initialized false destroyed.1, destroyed.2)
  else (this, []).

(** The calls that reach the singleton: [useRenderRoot(true)] mounts in
    its effect and unmounts in the cleanup, an explicit [<Leva>] sets the
    explicit flag in its effect and clears it in the cleanup. *)
Inductive Call : Type :=
  | Mount (hasBody : bool)
  | Unmount
  | SetExplicitPanel (isExplicit : bool).

Definition call (c : Call) (this : PanelLifecycle) : PanelLifecycle * list Effect :=
  match c with
  | Mount hasBody => mount hasBody this
  | Unmount => unmount this
  | SetExplicitPanel isExplicit => setExplicitPanel isExplicit this
  end.

(** A sequence of calls, with everything done to the document on the way. *)
Fixpoint run (calls : list Call) (this : PanelLifecycle) : PanelLifecycle * list Effect :=
  match calls with
  | [] => (this, [])
  | c :: rest =>
      let now := call c this in
      let later := run rest now.1 in
      (later.1, (now.2 ++ later.2)%list)
  end.

(** The React roots created and not unmounted. *)
Fixpoint liveRoots (log : list Effect) : Z :=
  match log with
  | [] => 0
  | CreateRoot :: rest => 1 + liveRoots rest
  | UnmountRoot :: rest => -1 + liveRoots rest
  | _ :: rest => liveRoots rest
  end.

(** Mounts minus unmounts. *)
Fixpoint balance (calls : list Call) : Z :=
  match calls with
  | [] => 0
  | Mount _ :: rest => 1 + balance rest
  | Unmount :: rest => -1 + balance rest
  | SetExplicitPanel _ :: rest => balance rest
  end.

(** Every unmount is the cleanup of an earlier mount, [open] mounts
    being there at the start. *)
Fixpoint bracketed (open : Z) (calls : list Call) : bool :=
  match calls with
  | [] => true
  | Mount _ :: rest => bracketed (open + 1) rest
  | Unmount :: rest => (0 <? open)%Z && bracketed (open - 1) rest
  | SetExplicitPanel _ :: rest => bracketed open rest
  end.

Definition is_mount (c : Call) : bool :=
  match c with
  | Mount _ => true
  | _ => false
  end.

Definition is_explicit (c : Call) : bool :=
  match c with
  | SetExplicitPanel _ => true
  | _ => false
  end.

Definition one_if (b : bool) : Z := if b then 1 else 0.

(** What holds of the fields between two calls. *)
Record Coherent (this : PanelLifecycle) : Prop := mkCoherent {
  coherent_rootEl : rootEl this = initialized this;
  coherent_reactRoot : reactRoot this = true -> rootEl this = true;
  coherent_explicit : initialized this = true -> explicitPanelInTree this = false
}.

Ltac panel_cases :=
  unfold call, mount, unmount, setExplicitPanel, createPanel, destroyPanel,
    set_refCount, set_initialized in *;
  simpl in *;
  repeat match goal with
         | |- context [(?a =? ?b)%Z] => destruct (Z.eqb_spec a b)
         | |- context [(?a <? ?b)%Z] => destruct (Z.ltb_spec a b)
         | b : bool |- _ => destruct b
         end;
  simpl in *; try done; try lia.

Lemma liveRoots_app log1 log2 :
  liveRoots (log1 ++ log2) = (liveRoots log1 + liveRoots log2)%Z.
Proof.
  induction log1 as [|[] log1 IH]; cbn [app liveRoots]; lia.
Qed.

Lemma call_coherent c this :
  Coherent this ->
  Coherent (call c this).1
  /\ liveRoots (call c this).2 = (one_if (reactRoot (call c this).1) - one_if (reactRoot this))%Z.
Proof.
  intros [Hroot Hreact Hexplicit].
  destruct this as [n el root init explicit]; simpl in *. subst el.
  destruct c as [hasBody| |isExplicit]; unfold call, mount, unmount, setExplicitPanel,
    createPanel, destroyPanel, set_refCount, set_initialized; simpl.
  - destruct init, explicit, hasBody, root; simpl; split; try split; simpl;
      intuition congruence.
  - destruct (n - 1 =? 0)%Z, init, root; simpl; split; try split; simpl;
      intuition congruence.
  - destruct isExplicit, init, root; simpl; split; try split; simpl;
      intuition congruence.
Qed.

Lemma run_app calls1 calls2 this :
  run (calls1 ++ calls2) this
  = ((run calls2 (run calls1 this).1).1,
     ((run calls1 this).2 ++ (run calls2 (run calls1 this).1).2)%list).
Proof.
  revert this. induction calls1 as [|c calls1 IH]; intros this.
  - simpl. by destruct (run calls2 this).
  - cbn [app run]. rewrite IH. cbn [fst snd]. by rewrite app_assoc.
Qed.

Lemma run_coherent calls this :
  Coherent this ->
  Coherent (run calls this).1
  /\ liveRoots (run calls this).2 = (one_if (reactRoot (run calls this).1) - one_if (reactRoot this))%Z.
Proof.
  revert this. induction calls as [|c calls IH]; intros this Hthis.
  - split; [done|]. simpl. lia.
  - cbn [run fst snd].
    destruct (call_coherent c this Hthis) as [Hnow Hlog].
    destruct (IH _ Hnow) as [Hlater Hlog'].
    split; [done|]. rewrite liveRoots_app. lia.
Qed.

Lemma panelLifecycle_coherent : Coherent panelLifecycle.
Proof. by split. Qed.

(** Whatever calls reach the singleton, in whatever order: the panel is
    marked initialized exactly when it holds a root element, a React
    root is only held together with a root element, the panel is never
    initialized while an explicit panel is in the tree, and the React
    roots created and not yet unmounted are the one that is held, if
    any; so there never are two of them. *)
Theorem panel_fields_coherent calls :
  let this := (run calls panelLifecycle).1 in
  let log := (run calls panelLifecycle).2 in
  rootEl this = initialized this
  /\ (reactRoot this = true -> rootEl this = true)
  /\ (initialized this = true -> explicitPanelInTree this = false)
  /\ liveRoots log = one_if (reactRoot this).
Proof.
  destruct (run_coherent calls panelLifecycle panelLifecycle_coherent)
    as [[Hroot Hreact Hexplicit] Hlog].
  simpl. split_and!; try done. rewrite Hlog. simpl. lia.
Qed.

Lemma call_refCount c this :
  refCount (call c this).1 = (refCount this + balance [c])%Z.
Proof.
  destruct c as [hasBody| |isExplicit]; unfold call, mount, unmount, setExplicitPanel,
    createPanel, destroyPanel, set_refCount, set_initialized; simpl.
  - destruct (negb (initialized this) && negb (explicitPanelInTree this));
      [destruct (negb (rootEl this)), hasBody|]; simpl; lia.
  - destruct ((refCount this - 1 =? 0)%Z && initialized this);
      [destruct (rootEl this)|]; simpl; lia.
  - destruct (isExplicit && initialized this); [destruct (rootEl this)|]; simpl; lia.
Qed.

(** The reference count is the number of mounts minus the number of
    unmounts, whatever else happened; nothing keeps it from going
    negative. *)
Theorem refCount_counts_mounts calls this :
  refCount (run calls this).1 = (refCount this + balance calls)%Z.
Proof.
  revert this. induction calls as [|c calls IH]; intros this.
  - simpl. lia.
  - cbn [run fst]. rewrite IH, call_refCount.
    destruct c; cbn [balance]; lia.
Qed.

(** While every unmount is the cleanup of an earlier mount, an
    initialized panel has a mounted user; and as long as no explicit
    panel is involved the converse holds too: the panel is there exactly
    while the reference count is positive. *)
Theorem panel_exists_while_used calls :
  bracketed 0 calls = true ->
  let this := (run calls panelLifecycle).1 in
  (initialized this = true -> (0 < refCount this)%Z)
  /\ (forallb (fun c => negb (is_explicit c)) calls = true ->
      initialized this = (0 <? refCount this)%Z).
Proof.
  assert (Hgen : forall calls this,
    (0 <= refCount this)%Z ->
    bracketed (refCount this) calls = true ->
    (initialized this = true -> (0 < refCount this)%Z) ->
    (initialized (run calls this).1 = true -> (0 < refCount (run calls this).1)%Z)
    /\ (forallb (fun c => negb (is_explicit c)) calls = true ->
        explicitPanelInTree this = false ->
        initialized this = (0 <? refCount this)%Z ->
        initialized (run calls this).1 = (0 <? refCount (run calls this).1)%Z)).
  { clear calls. intros calls. induction calls as [|c calls IH]; intros this Hn Hb Hinit.
    { by split. }
    cbn [run fst forallb].
    assert (Hstep : (0 <= refCount (call c this).1)%Z
                    /\ bracketed (refCount (call c this).1) calls = true
                    /\ (initialized (call c this).1 = true
                        -> (0 < refCount (call c this).1)%Z)
                    /\ (is_explicit c = false -> explicitPanelInTree this = false ->
                        initialized this = (0 <? refCount this)%Z ->
                        explicitPanelInTree (call c this).1 = false
                        /\ initialized (call c this).1
                           = (0 <? refCount (call c this).1)%Z)).
    { rewrite call_refCount.
      destruct this as [n el root init explicit]; simpl in *.
      destruct c as [hasBody| |isExplicit]; cbn [bracketed balance] in *.
      - replace (n + (1 + 0))%Z with (n + 1)%Z by lia.
        split_and!; [lia|done|lia|]. intros _ -> ->. panel_cases.
      - apply andb_true_iff in Hb as [Hpos%Z.ltb_lt Hb].
        replace (n + (-1 + 0))%Z with (n - 1)%Z by lia.
        split_and!; [lia|done| |intros _ -> ->]; panel_cases.
      - replace (n + 0)%Z with n by lia.
        split_and!; [lia|done| |done]. panel_cases. }
    destruct Hstep as (Hn' & Hb' & Hinit' & Hno).
    destruct (IH _ Hn' Hb' Hinit') as [IH1 IH2].
    split; [done|].
    intros [Hc%negb_true_iff Hrest]%andb_true_iff Hexplicit Heq.
    destruct (Hno Hc Hexplicit Heq). by apply IH2. }
  intros Hb. simpl.
  destruct (Hgen calls panelLifecycle) as [H1 H2]; simpl; try done.
  split; [done|]. intros Hno. by apply H2.
Qed.

(** An explicit panel that comes and goes takes the automatic panel
    with it: afterwards the panel is not initialized although the
    reference count is what it was, so mounted users are left without a
    panel until the next mount, which creates it again. *)
Theorem explicit_panel_leaves_no_panel calls hasBody :
  let this := (run calls panelLifecycle).1 in
  let after := (run [SetExplicitPanel true; SetExplicitPanel false] this).1 in
  initialized after = false
  /\ explicitPanelInTree after = false
  /\ refCount after = refCount this
  /\ initialized (mount hasBody after).1 = true
  /\ (mount hasBody after).2 = if hasBody then [AppendChild; CreateRoot; Render] else [].
Proof.
  destruct (run_coherent calls panelLifecycle panelLifecycle_coherent)
    as [[Hroot Hreact Hexplicit] _].
  destruct (run calls panelLifecycle).1 as [n el root init explicit].
  cbn [run call fst snd]. simpl in *. subst el.
  unfold mount, setExplicitPanel, createPanel, destroyPanel, set_refCount,
    set_initialized; simpl.
  destruct init, hasBody; simpl; done.
Qed.

Definition needs_body (c : Call) : bool :=
  match c with
  | Mount false => false
  | _ => true
  end.

Lemma run_with_body calls this :
  forallb needs_body calls = true ->
  Coherent this -> reactRoot this = rootEl this ->
  reactRoot (run calls this).1 = rootEl (run calls this).1.
Proof.
  revert this. induction calls as [|c calls IH]; intros this Hbody Hthis Heq; [done|].
  cbn [forallb] in Hbody. apply andb_true_iff in Hbody as [Hc Hbody].
  cbn [run fst]. apply IH; [done|by apply call_coherent|].
  destruct Hthis as [Hroot _ _].
  destruct this as [n el root init explicit]; simpl in *. subst el root.
  destruct c as [[]| |isExplicit]; try done; panel_cases.
Qed.

Lemma run_without_body calls this :
  forallb is_mount calls = true ->
  initialized this = true -> reactRoot this = false ->
  run calls this
  = ({| refCount := refCount this + balance calls; rootEl := rootEl this;
        reactRoot := false; initialized := true;
        explicitPanelInTree := explicitPanelInTree this |}, []).
Proof.
  revert this. induction calls as [|c calls IH]; intros this Hmounts Hinit Hreact.
  - destruct this; simpl in *. subst. f_equal. f_equal. lia.
  - cbn [forallb] in Hmounts. apply andb_true_iff in Hmounts as [Hc Hmounts].
    destruct c as [hasBody| |]; try done.
    cbn [run call balance]. unfold mount. simpl. rewrite Hinit. simpl.
    rewrite IH by done. simpl. f_equal. f_equal. lia.
Qed.

(** The panel is rendered only if [document.body] is there at the mount
    that initializes it.  When it is there at every mount, an
    initialized panel always holds its React root.  When it is missing
    at the first mount, the panel is marked initialized without a React
    root, and the mounts that follow neither append nor render anything. *)
Theorem panel_rendered_with_body calls :
  (forallb needs_body calls = true ->
   reactRoot (run calls panelLifecycle).1 = initialized (run calls panelLifecycle).1)
  /\ (forallb is_mount calls = true ->
      let result := run (Mount false :: calls) panelLifecycle in
      initialized result.1 = true /\ reactRoot result.1 = false /\ result.2 = []).
Proof.
  split.
  - intros Hbody.
    rewrite (run_with_body calls panelLifecycle Hbody panelLifecycle_coherent eq_refl).
    apply (run_coherent calls panelLifecycle panelLifecycle_coherent).
  - intros Hmounts. cbn [run call fst snd].
    by rewrite (run_without_body calls (mount false panelLifecycle).1 Hmounts).
Qed.

Lemma panel_exists_while_used_witness :
  (initialized (run [Mount true; Mount true; Unmount] panelLifecycle).1 = true ->
   (0 < refCount (run [Mount true; Mount true; Unmount] panelLifecycle).1)%Z)
  /\ (forallb (fun c => negb (is_explicit c)) [Mount true; Mount true; Unmount] = true ->
      initialized (run [Mount true; Mount true; Unmount] panelLifecycle).1
      = (0 <? refCount (run [Mount true; Mount true; Unmount] panelLifecycle).1)%Z).
Proof.
  apply (panel_exists_while_used [Mount true; Mount true; Unmount]). reflexivity.
Defined.

Lemma panel_rendered_with_body_witness :
  reactRoot (run [Mount true; Unmount; Mount true] panelLifecycle).1
  = initialized (run [Mount true; Unmount; Mount true] panelLifecycle).1.
Proof.
  apply (proj1 (panel_rendered_with_body [Mount true; Unmount; Mount true])).
  reflexivity.
Defined.

End Panel.


(** ** hooks/useDrag.ts: the edit lifecycle around a drag handler *)

Module Drag.
Import Snapshot.

(** The callbacks that the wrapper has called, in order, the handler
    with the event it was given and with what came of the call. *)
Inductive Called (State : Type) : Type :=
  | EditStart
  | Handler (state : State) (outcome : Outcome)
  | EditEnd.
Arguments EditStart {State}.
Arguments Handler {State} state outcome.
Arguments EditEnd {State}.

(** What the wrapper acts on: the class list of [document.body], the
    state that the callbacks of the caller act on, and the calls made. *)
Record World (State User : Type) : Type := mkWorld {
  classList : gset string;
  user : User;
  calls : list (Called State)
}.
Arguments mkWorld {State User}.
Arguments classList {State User}.
Arguments user {State User}.
Arguments calls {State User}.

Definition dragged : string := "leva__panel__dragged".

Section UseDrag.

Context {State User : Type}.

(** [state.first] and [state.last] of the gesture state. *)
Variable first last : State -> bool.

(** The handler given to [useDrag]; like the two emitters of the input
    context it runs on the caller's own state and may throw.  None of
    the three is taken to change the class list of the body. *)
Variable handler : State -> User -> User * Outcome.

(** [emitOnEditStart] and [emitOnEditEnd], either of which may be
    [undefined]. *)
Variable emitOnEditStart emitOnEditEnd : option (User -> User * Completion).

(** [emit?.()] *)
Definition optional_call (emit : option (User -> User * Completion)) (name : Called State)
    (w : World State User) : World State User * Completion :=
  match emit with
  | Some f =>
      ({| classList := classList w; user := (f (user w)).1;
          calls := (calls w ++ [name])%list |}, (f (user w)).2)
  | None => (w, Normal)
  end.

(** [if (state.first) { classList.add(...); emitOnEditStart?.() }] *)
Definition start (state : State) (w : World State User) : World State User * Completion :=
  if first state then
    optional_call emitOnEditStart EditStart
      {| classList := {[ dragged ]} ∪ classList w; user := user w; calls := calls w |}
  else (w, Normal).

(** [if (state.last) { classList.remove(...); emitOnEditEnd?.() }] *)
Definition finish (state : State) (w : World State User) : World State User * Completion :=
  if last state then
    optional_call emitOnEditEnd EditEnd
      {| classList := classList w ∖ {[ dragged ]}; user := user w; calls := calls w |}
  else (w, Normal).

(** The function that [useDrag] hands to the gesture library: the two
    blocks around [const result = handler(state)], then [return result]. *)
Definition wrapper (state : State) (w : World State User) : World State User * Outcome :=
  let started := start state w in
  match started.2 with
  | Throw error => (started.1, Raise error)
  | Normal =>
      let handled :=
        {| classList := classList started.1;
           user := (handler state (user started.1)).1;
           calls := (calls started.1
                       ++ [Handler state (handler state (user started.1)).2])%list |} in
      match (handler state (user started.1)).2 with
      | Raise error => (handled, Raise error)
      | Return result =>
          let ended := finish state handled in
          match ended.2 with
          | Throw error => (ended.1, Raise error)
          | Normal => (ended.1, Return result)
          end
      end
  end.

(** The events of a gesture, handed to the wrapper one after the other;
    an event whose call throws does not keep the next ones from coming. *)
Fixpoint gesture (states : list State) (w : World State User)
    : World State User * list Outcome :=
  match states with
  | [] => (w, [])
  | state :: rest =>
      let now := wrapper state w in
      let later := gesture rest now.1 in
      (later.1, now.2 :: later.2)
  end.

Definition returned (o : Outcome) : bool :=
  match o with
  | Return _ => true
  | Raise _ => false
  end.

Definition emitted (emit : option (User -> User * Completion)) (name : Called State)
    : list (Called State) :=
  match emit with
  | Some _ => [name]
  | None => []
  end.

Lemma optional_call_classList emit name w :
  classList (optional_call emit name w).1 = classList w.
Proof. by destruct emit. Qed.

Lemma optional_call_calls emit name w :
  calls (optional_call emit name w).1 = (calls w ++ emitted emit name)%list.
Proof. destruct emit; simpl; [done|by rewrite app_nil_r]. Qed.

Lemma start_classList state w :
  classList (start state w).1
  = if first state then {[ dragged ]} ∪ classList w else classList w.
Proof.
  unfold start. destruct (first state); [|done]. by rewrite optional_call_classList.
Qed.

Lemma finish_classList state w :
  classList (finish state w).1
  = if last state then classList w ∖ {[ dragged ]} else classList w.
Proof.
  unfold finish. destruct (last state); [|done]. by rewrite optional_call_classList.
Qed.

Lemma wrapper_not_last state w :
  last state = false ->
  classList (wrapper state w).1
  = if first state then {[ dragged ]} ∪ classList w else classList w.
Proof.
  intros Hlast. rewrite <- start_classList. unfold wrapper.
  destruct (start state w) as [w1 [|error]]; [|done]. cbn [fst snd].
  destruct (handler state (user w1)) as [u [result|error]]; [|done]. cbn [fst snd].
  unfold finish. by rewrite Hlast.
Qed.

Lemma wrapper_last_returns state w result :
  last state = true ->
  (wrapper state w).2 = Return result ->
  classList (wrapper state w).1
  = (if first state then {[ dragged ]} ∪ classList w else classList w) ∖ {[ dragged ]}.
Proof.
  intros Hlast. rewrite <- start_classList. unfold wrapper.
  destruct (start state w) as [w1 [|error]]; [|done]. cbn [fst snd].
  destruct (handler state (user w1)) as [u [result'|error]]; [|done]. cbn [fst snd].
  match goal with
  | |- context [finish state ?x] =>
      pose proof (finish_classList state x) as Hcl;
      destruct (finish state x) as [w2 [|error]]; [|done]
  end.
  intros _. cbn [fst snd] in *. by rewrite Hcl, Hlast.
Qed.

Lemma wrapper_handler_throws state w error :
  first state = false ->
  (handler state (user w)).2 = Raise error ->
  wrapper state w
  = ({| classList := classList w; user := (handler state (user w)).1;
        calls := (calls w ++ [Handler state (Raise error)])%list |}, Raise error).
Proof.
  intros Hfirst Hthrow. unfold wrapper, start. rewrite Hfirst. cbn [fst snd].
  by rewrite Hthrow.
Qed.

Lemma gesture_not_last states w :
  Forall (fun state => last state = false) states ->
  classList w ⊆ classList (gesture states w).1.
Proof.
  intros Hstates. revert w. induction Hstates as [|state states Hlast _ IH]; intros w.
  - done.
  - cbn [gesture fst]. etrans; [|apply IH].
    rewrite wrapper_not_last by done. destruct (first state); set_solver.
Qed.

(** From the first event of a gesture on and as long as no event is the
    last one, the body carries the class, whether or not a callback
    throws on the way.  A last event whose call returns takes the class
    away again and leaves the other classes alone.  A last event on
    which the handler throws leaves the class on the body and
    [emitOnEditEnd] uncalled: the wrapper does not clean up after a
    throw. *)
Theorem drag_class_during_gesture state1 middle w :
  first state1 = true ->
  Forall (fun state => last state = false) (state1 :: middle) ->
  let dragging := (gesture (state1 :: middle) w).1 in
  dragged ∈ classList dragging
  /\ (forall stateN result,
        last stateN = true ->
        (wrapper stateN dragging).2 = Return result ->
        (dragged ∉ classList (wrapper stateN dragging).1)
        /\ (classList (wrapper stateN dragging).1) ∖ {[ dragged ]}
           = (classList dragging) ∖ {[ dragged ]})
  /\ (forall stateN error,
        first stateN = false ->
        (handler stateN (user dragging)).2 = Raise error ->
        (wrapper stateN dragging).2 = Raise error
        /\ dragged ∈ classList (wrapper stateN dragging).1
        /\ EditEnd ∉ drop (length (calls dragging)) (calls (wrapper stateN dragging).1)).
Proof.
  intros Hfirst Hstates. cbv zeta.
  assert (Hin : dragged ∈ classList (gesture (state1 :: middle) w).1).
  { cbn [gesture fst]. apply Forall_cons in Hstates as [Hlast Hmiddle].
    apply (gesture_not_last middle _ Hmiddle).
    rewrite wrapper_not_last by done. rewrite Hfirst. set_solver. }
  generalize dependent (gesture (state1 :: middle) w).1. intros dragging Hin.
  split; [done|]. split.
  - intros stateN result HlastN Hreturn.
    rewrite (wrapper_last_returns _ _ _ HlastN Hreturn).
    destruct (first stateN); set_solver.
  - intros stateN error HfirstN Hthrow.
    rewrite (wrapper_handler_throws _ _ _ HfirstN Hthrow). cbn [fst snd calls classList].
    split_and!; [done|done|].
    rewrite drop_app_length. by intros ?%list_elem_of_singleton.
Qed.

Definition handled (state : State) (o : Outcome) : Called State := Handler state o.

Lemma start_calls state w :
  calls (start state w).1
  = (calls w ++ if first state then emitted emitOnEditStart EditStart else [])%list.
Proof.
  unfold start. destruct (first state).
  - by rewrite optional_call_calls.
  - by rewrite app_nil_r.
Qed.

Lemma finish_calls state w :
  calls (finish state w).1
  = (calls w ++ if last state then emitted emitOnEditEnd EditEnd else [])%list.
Proof.
  unfold finish. destruct (last state).
  - by rewrite optional_call_calls.
  - by rewrite app_nil_r.
Qed.

Lemma wrapper_calls state w result :
  (wrapper state w).2 = Return result ->
  calls (wrapper state w).1
  = (calls w
       ++ (if first state then emitted emitOnEditStart EditStart else [])
       ++ [Handler state (Return result)]
       ++ (if last state then emitted emitOnEditEnd EditEnd else []))%list.
Proof.
  pose proof (start_calls state w) as Hstart. revert Hstart. unfold wrapper.
  destruct (start state w) as [w1 [|error]]; [|done]. cbn [fst snd].
  destruct (handler state (user w1)) as [u [result'|error]]; [|done]. cbn [fst snd].
  match goal with
  | |- context [finish state ?x] =>
      pose proof (finish_calls state x) as Hfinish;
      destruct (finish state x) as [w2 [|error]]; [|done]
  end.
  cbn [fst snd calls] in *. intros Hstart [= ->].
  by rewrite Hfinish, Hstart, <- !app_assoc.
Qed.

Lemma gesture_middle middle w :
  Forall (fun state => first state = false /\ last state = false) middle ->
  forallb returned (gesture middle w).2 = true ->
  calls (gesture middle w).1
  = (calls w ++ zip_with handled middle (gesture middle w).2)%list.
Proof.
  intros Hmiddle. revert w.
  induction Hmiddle as [|state middle [Hfirst Hlast] _ IH]; intros w.
  - intros _. simpl. by rewrite app_nil_r.
  - cbn [gesture fst snd forallb zip_with].
    intros [Hnow Hlater]%andb_true_iff.
    destruct (wrapper state w).2 as [result|] eqn:Hresult; [|done].
    rewrite IH by done. rewrite (wrapper_calls _ _ _ Hresult), Hfirst, Hlast.
    by rewrite <- !app_assoc.
Qed.

Lemma gesture_app states1 states2 w :
  gesture (states1 ++ states2) w
  = ((gesture states2 (gesture states1 w).1).1,
     ((gesture states1 w).2 ++ (gesture states2 (gesture states1 w).1).2)%list).
Proof.
  revert w. induction states1 as [|state states1 IH]; intros w.
  - simpl. by destruct (gesture states2 w).
  - cbn [app gesture]. by rewrite IH.
Qed.

(** In a gesture whose calls all return, the callbacks are called in
    this order: [emitOnEditStart] once, if there is one, before the
    handler sees the first event; the handler once for each event, in
    order; [emitOnEditEnd] once, if there is one, after the handler has
    seen the last event.  Each call of the wrapper returns what the
    handler returned for that event. *)
Theorem drag_callbacks_in_order state1 middle stateN w :
  first state1 = true -> last state1 = false ->
  Forall (fun state => first state = false /\ last state = false) middle ->
  first stateN = false -> last stateN = true ->
  let states := (state1 :: middle ++ [stateN])%list in
  forallb returned (gesture states w).2 = true ->
  calls (gesture states w).1
  = (calls w
       ++ emitted emitOnEditStart EditStart
       ++ zip_with handled states (gesture states w).2
       ++ emitted emitOnEditEnd EditEnd)%list
  /\ length (gesture states w).2 = length states.
Proof.
  intros Hfirst1 Hlast1 Hmiddle HfirstN HlastN states. subst states.
  cbn [gesture fst snd forallb]. rewrite !gesture_app. cbn [fst snd gesture].
  rewrite forallb_app. cbn [forallb].
  intros [H1 [Hmid [HN _]%andb_true_iff]%andb_true_iff]%andb_true_iff.
  destruct (wrapper state1 w).2 as [result1|] eqn:Hresult1; [|done].
  pose proof (gesture_middle middle (wrapper state1 w).1 Hmiddle Hmid) as Hcalls.
  set (w1 := (wrapper state1 w).1) in *.
  assert (Hlen : length (gesture middle w1).2 = length middle).
  { clear. generalize w1. induction middle as [|s m IH]; intros w0; [done|].
    cbn [gesture snd length]. by rewrite IH. }
  set (w2 := (gesture middle w1).1) in *.
  destruct (wrapper stateN w2).2 as [resultN|] eqn:HresultN; [|done].
  split.
  - rewrite (wrapper_calls _ _ _ HresultN), Hcalls. unfold w1.
    rewrite (wrapper_calls _ _ _ Hresult1), Hfirst1, Hlast1, HfirstN, HlastN.
    cbn [zip_with]. rewrite zip_with_app by done. cbn [zip_with].
    rewrite <- !app_assoc. simpl. by rewrite <- !app_assoc.
  - cbn [length]. rewrite !length_app, Hlen. done.
Qed.

End UseDrag.

(** A slider: the events carry a movement, the handler adds it to the
    value and returns the new value, the emitters do nothing else. *)
Record Pointer : Type := mkPointer {
  pointer_first : bool;
  pointer_last : bool;
  movement : Z
}.

Definition slide (state : Pointer) (value : Z) : Z * Outcome :=
  ((value + movement state)%Z, Return (VNum (value + movement state))).

Definition emit_nothing : option (Z -> Z * Completion) :=
  Some (fun value => (value, Normal)).

Definition at_rest : World Pointer Z :=
  {| classList := {[ "dark" ]}; user := 10%Z; calls := [] |}.

Definition press : Pointer :=
  {| pointer_first := true; pointer_last := false; movement := 0 |}.
Definition move : Pointer :=
  {| pointer_first := false; pointer_last := false; movement := 3 |}.
Definition release : Pointer :=
  {| pointer_first := false; pointer_last := true; movement := 1 |}.

Lemma drag_class_during_gesture_witness :
  dragged ∈ classList (gesture pointer_first pointer_last slide emit_nothing emit_nothing
                         [press; move] at_rest).1.
Proof.
  pose proof (drag_class_during_gesture pointer_first pointer_last slide emit_nothing
                emit_nothing press [move] at_rest eq_refl ltac:(repeat constructor))
    as [Hdragged _].
  exact Hdragged.
Defined.

Lemma drag_callbacks_in_order_witness :
  calls (gesture pointer_first pointer_last slide emit_nothing emit_nothing
           [press; move; release] at_rest).1
  = [EditStart; Handler press (Return (VNum 10)); Handler move (Return (VNum 13));
     Handler release (Return (VNum 14)); EditEnd].
Proof.
  pose proof (drag_callbacks_in_order pointer_first pointer_last slide emit_nothing
                emit_nothing press [move] release at_rest
                eq_refl eq_refl ltac:(repeat constructor) eq_refl eq_refl) as Hcalls.
  destruct Hcalls as [Hcalls _]; [by vm_compute|].
  vm_compute in Hcalls. vm_compute. exact Hcalls.
Defined.

End Drag.


(** ** stories/advanced: the green-or-blue custom plugin *)

Module GreenOrBlue.
Import Snapshot.

(** [Error('Invalid value')] *)
Definition invalid_value : Val :=
  VObj {[ "name" := VStr "Error"; "message" := VStr "Invalid value" ]}.

Definition accepted : list string := ["green"; "blue"; "lightgreen"; "lightblue"].

(** [strings.includes(v)]: only a string is strictly equal to one of
    the strings. *)
Definition includes (strings : list string) (v : Val) : bool :=
  match v with
  | VStr s => existsb (String.eqb s) strings
  | _ => false
  end.

Fixpoint strip_prefix (p s : string) : option string :=
  match p, s with
  | EmptyString, _ => Some s
  | String a p', String b s' => if Ascii.eqb a b then strip_prefix p' s' else None
  | String _ _, EmptyString => None
  end.

(** [.] of a regular expression matches any character but a line
    terminator. *)
Definition line_terminator (c : Ascii.ascii) : bool :=
  Ascii.eqb c (Ascii.ascii_of_nat 10) || Ascii.eqb c (Ascii.ascii_of_nat 13).

Fixpoint any_characters (s : string) : string :=
  match s with
  | EmptyString => EmptyString
  | String c rest =>
      if line_terminator c then EmptyString else String c (any_characters rest)
  end.

(** The two groups of the match in [sanitize], an optional [light]
    followed by any characters.  The pattern matches at the start of
    every string: the optional group takes [light] if the string starts
    with it and is [undefined] otherwise, the second group takes what
    follows up to the end of the line. *)
Definition match_light (s : string) : Val * Val :=
  match strip_prefix "light" s with
  | Some rest => (VStr "light", VStr (any_characters rest))
  | None => (VUndefined, VStr (any_characters s))
  end.

(** [normalize({ color, light, alpha })] *)
Definition normalize (input : Obj) : Obj :=
  {[ "value" := VObj {[ "color" := prop input "color"; "light" := prop input "light" ]};
     "settings" := VObj {[ "alpha" := prop input "alpha" ]} ]}.

(** [sanitize(v)]; a value that is not a string does not get past the
    check, it has no [match] method to call. *)
Definition sanitize (v : Val) : Outcome :=
  if negb (includes accepted v) then Raise invalid_value
  else
    match v with
    | VStr s =>
        let '(isLight, color) := match_light s in
        Return (VObj {[ "light" := VBool (truthy isLight); "color" := color ]})
    | _ => Raise TypeError
    end.

(** [format(v)]: [(v.light ? 'light' : '') + v.color] *)
Definition format (v : Obj) : string :=
  (if truthy (prop v "light") then "light" else "") ++ toString (prop v "color").

Lemma includes_accepted v :
  includes accepted v = true <-> exists s, s ∈ accepted /\ v = VStr s.
Proof.
  split.
  - destruct v as [| | | |s| | |]; try discriminate. simpl.
    intros Hin. exists s. split; [|done].
    repeat (apply orb_true_iff in Hin as [Hin|Hin]); try discriminate Hin;
      apply String.eqb_eq in Hin as ->; unfold accepted;
      rewrite !elem_of_cons; tauto.
  - intros (s & Hin & ->). unfold accepted in Hin.
    repeat (apply elem_of_cons in Hin as [->|Hin]); try reflexivity.
    by apply elem_of_nil in Hin.
Qed.

(** [sanitize] takes the four colour names and nothing else: [format]
    gives back the name that [sanitize] was given, and any other value,
    a string or not, is refused with [Error('Invalid value')]. *)
Theorem sanitize_then_format :
  (forall s, s ∈ accepted ->
     exists value, sanitize (VStr s) = Return (VObj value) /\ format value = s)
  /\ (forall v, (forall s, s ∈ accepted -> v <> VStr s) ->
        sanitize v = Raise invalid_value).
Proof.
  split.
  - intros s Hin. unfold accepted in Hin.
    repeat (apply elem_of_cons in Hin as [->|Hin]);
      try (by apply elem_of_nil in Hin);
      eexists; split; reflexivity.
  - intros v Hother. unfold sanitize.
    destruct (includes accepted v) eqn:Hin; [|done].
    apply includes_accepted in Hin as (s & Hin & ->).
    by destruct (Hother s Hin).
Qed.

(** The value that [normalize] takes from an input with one of the two
    colours and a boolean [light] goes through [format] and [sanitize]
    unchanged. *)
Theorem format_then_sanitize input light color :
  prop input "light" = VBool light ->
  prop input "color" = VStr color ->
  color ∈ ["green"; "blue"] ->
  exists value,
    prop (normalize input) "value" = VObj value
    /\ sanitize (VStr (format value)) = Return (VObj value).
Proof.
  intros Hlight Hcolor Hin.
  exists {[ "color" := VStr color; "light" := VBool light ]}. split.
  - unfold normalize. by rewrite Hlight, Hcolor.
  - apply elem_of_cons in Hin as [->|Hin]; [|apply elem_of_cons in Hin as [->|Hin]];
      [destruct light; by vm_compute..|by apply elem_of_nil in Hin].
Qed.

Lemma format_then_sanitize_witness :
  exists value,
    prop (normalize {[ "color" := VStr "green"; "light" := VBool true;
                       "alpha" := VNum 1 ]}) "value" = VObj value
    /\ sanitize (VStr (format value)) = Return (VObj value).
Proof.
  apply (format_then_sanitize _ true "green").
  - reflexivity.
  - reflexivity.
  - apply list_elem_of_here.
Defined.

End GreenOrBlue.
